(** * Pedestrian costing (thor/pedestriancost.cc)

    A shallow embedding of [valhalla::thor::PedestrianCost]: the access
    test [Allowed], the edge cost [Get], the traversal time [Seconds],
    the A* factor [AStarCostFactor], the bucket size [UnitSize], the
    location filter [GetFilter] and the factory [CreatePedestrianCost].

    The C++ type [float] is IEEE 754 binary32 with round-to-nearest-even.
    It is modelled exactly, through the Standard Library's executable
    specification of binary floating point ([SpecFloat]) instantiated at
    24 bits of precision and maximal exponent 128. *)

From Stdlib Require Import ZArith Lia Bool List String Ascii QArith.
From Stdlib Require Import SpecFloat.
Import ListNotations.

Local Open Scope Z_scope.

(** ** binary32 arithmetic *)

Module F32.

Definition prec : Z := 24.
Definition emax : Z := 128.

(** A C++ [float]. *)
Definition float32 : Type := spec_float.

Definition valid (x : float32) : bool := valid_binary prec emax x.

Definition mul (x y : float32) : float32 := SFmul prec emax x y.
Definition div (x y : float32) : float32 := SFdiv prec emax x y.

(** The C++ comparison operators on [float]; every one of them is false
    as soon as an operand is a NaN. *)
Definition ltb (x y : float32) : bool := SFltb x y.
Definition leb (x y : float32) : bool := SFleb x y.
Definition gtb (x y : float32) : bool := SFltb y x.
Definition geb (x y : float32) : bool := SFleb y x.
Definition eqb (x y : float32) : bool := SFeqb x y.

(** Conversion of an integer to [float] (round to nearest even). *)
Definition of_Z (z : Z) : float32 := binary_normalize prec emax z 0 false.

Definition zero : float32 := S754_zero false.

(** The literals of the source file, as the compiler rounds them:
    [0.9f] is 0x3F666666, [5.1f] is 0x40A33333, [3.6f] is 0x40666666,
    [2.0f] is 0x40000000 and [1.0f] is 0x3F800000. *)
Definition lit_0_9 : float32 := S754_finite false 15099494 (-24).
Definition lit_5_1 : float32 := S754_finite false 10695475 (-21).
Definition lit_3_6 : float32 := S754_finite false 15099494 (-22).
Definition lit_2_0 : float32 := S754_finite false 8388608 (-22).
Definition lit_1_0 : float32 := S754_finite false 8388608 (-23).

(** The rational number a float denotes ([None] for NaN and infinities). *)
Definition to_Q (x : float32) : option Q :=
  match x with
  | S754_zero _ => Some 0%Q
  | S754_finite s m e =>
      let a := if s then Z.neg m else Z.pos m in
      Some (match e with
            | Z0 => inject_Z a
            | Zpos p => inject_Z (a * 2 ^ Zpos p)
            | Zneg p => Qmake a (2 ^ p)
            end)
  | _ => None
  end.

(** A float that is a zero, or finite or infinite with the sign bit
    clear: the floats [x] with [x >= 0]. *)
Definition nonneg_float (x : float32) : bool :=
  match x with
  | S754_zero _ => true
  | S754_infinity s | S754_finite s _ _ => negb s
  | S754_nan => false
  end.

End F32.

Import F32.


(** ** The graph attributes read by the costing (namespace baldr) *)

Module baldr.

(** Modelled from the spec: the [Use] enumeration, declared in
    baldr/graphconstants.h.  The specification lists its values as
    "road, footway, steps, ferry, ..."; the costing only ever tests for
    [kFootway]. *)
Inductive Use : Type :=
| kRoad
| kFootway
| kSteps
| kFerry
| kOtherUse (code : N).

(** The attributes of a directed edge that pedestriancost.cc reads
    through accessors.  [length] is the value [edge->length()] has once
    converted to [float], which is how every use in the file reads it. *)
Record DirectedEdge : Type := {
  forwardaccess : Z;
  length : float32;
  use : Use;
  not_thru : bool;
  trans_up : bool;
  trans_down : bool
}.

Record NodeInfo : Type := {
  access : Z
}.

(** The edge with another forward access mask and nothing else changed. *)
Definition with_forwardaccess (edge : DirectedEdge) (mask : Z) : DirectedEdge :=
  {| forwardaccess := mask;
     length := length edge;
     use := use edge;
     not_thru := not_thru edge;
     trans_up := trans_up edge;
     trans_down := trans_down edge |}.

(** The data model's invariant on an edge: its length is a float and is
    not below zero (so it is not a NaN either). *)
Definition well_formed (edge : DirectedEdge) : bool :=
  valid (length edge) && geb (length edge) zero.

End baldr.

Import baldr.

(** ** Configuration (boost::property_tree::ptree) *)

Module config.

#[local] Set Warnings "-register-all".

(** A property tree: a node carries a string and an ordered list of
    named children. *)
Inductive ptree : Type :=
| PTree (data : string) (children : list (string * ptree)).

Definition data_of (t : ptree) : string :=
  match t with PTree d _ => d end.

Definition children_of (t : ptree) : list (string * ptree) :=
  match t with PTree _ cs => cs end.

(** The data of the first child with the given key. *)
Definition get (key : string) (t : ptree) : option string :=
  match find (fun kv => String.eqb (fst kv) key) (children_of t) with
  | Some kv => Some (data_of (snd kv))
  | None => None
  end.

Definition digit_of (c : ascii) : option Z :=
  let n := Z.of_N (N_of_ascii c) in
  if (48 <=? n) && (n <=? 57) then Some (n - 48) else None.

(** Digits with at most one decimal point, read as a rational. *)
Fixpoint parse_digits (s : string) (acc : Z) (scale : positive) (frac : bool)
  : option Q :=
  match s with
  | EmptyString => Some (Qmake acc scale)
  | String c rest =>
      if Ascii.eqb c "."%char then
        if frac then None else parse_digits rest acc scale true
      else
        match digit_of c with
        | Some d =>
            parse_digits rest (10 * acc + d)
                         (if frac then (10 * scale)%positive else scale) frac
        | None => None
        end
  end.

Definition parse_number (s : string) : option Q :=
  match s with
  | EmptyString => None
  | String c rest =>
      if Ascii.eqb c "-"%char
      then option_map Qopp (parse_digits rest 0 1 false)
      else parse_digits s 0 1 false
  end.

(** A parameter is acceptable when it is unset (it then takes its
    default) or when it is a number that passes [ok]. *)
Definition param_ok (key : string) (ok : Q -> bool) (t : ptree) : bool :=
  match get key t with
  | None => true
  | Some s =>
      match parse_number s with
      | Some q => ok q
      | None => false
      end
  end.

(** Modelled from the spec: the documented valid domain of the
    pedestrian parameters (section 7: a speed is positive, a weight and
    a tolerance distance are not negative).  pedestriancost.cc reads no
    parameter, so the keys have no name there; they are named here after
    the members they would fill. *)
Definition in_valid_domain (t : ptree) : bool :=
  param_ok "walkingspeed" (fun q => Qle_bool 0 q && negb (Qeq_bool q 0)) t
  && param_ok "favorwalkways" (fun q => Qle_bool 0 q) t
  && param_ok "not_thru_distance" (fun q => Qle_bool 0 q) t.

End config.

Import config.

(** ** The pedestrian costing (namespace thor) *)

Module thor.

(** Modelled from the spec: [ConfigurationError] is the error the
    specification names for a rejected configuration.  There is no
    [throw] in pedestriancost.cc; whatever else the base class may
    throw is a [std_exception]. *)
Inductive exception : Type :=
| ConfigurationError (what : string)
| std_exception (what : string).

(** How a call that may throw ends. *)
Inductive outcome (A : Type) : Type :=
| Returned (a : A)
| Thrown (e : exception).
Arguments Returned {A} a.
Arguments Thrown {A} e.

(** The state of a [PedestrianCost] object: the two members the class
    declares, and [not_thru_distance_], which it inherits from
    [DynamicCost]. *)
Record PedestrianCost : Type := {
  not_thru_distance_ : float32;
  walkingspeed_ : float32;
  favorwalkways_ : float32
}.

Section Model.

(** The access bit of the pedestrian mode, a constant of
    baldr/graphconstants.h. *)
Variable kPedestrianAccess : Z.

(** The base-class initialiser [DynamicCost(config)], defined in
    thor/dynamiccost.cc.  It receives the configuration and may read it;
    it either throws or returns, and when it returns it has given the
    inherited member [not_thru_distance_] a value.  That member is all
    pedestriancost.cc reads of the base class, in [Allowed]. *)
Variable DynamicCost_ctor : ptree -> outcome float32.

(** The constructor of [PedestrianCost] once the base-class initialiser
    has returned, leaving [base_not_thru_distance] in the inherited
    member: the two members of the class are set, and the configuration
    is not looked at. *)
Definition PedestrianCost_ctor (base_not_thru_distance : float32)
           (config : ptree) : PedestrianCost :=
  {| not_thru_distance_ := base_not_thru_distance;
     walkingspeed_ := lit_5_1;
     favorwalkways_ := lit_0_9 |}.

(** [Allowed(edge, restriction, uturn, dist2dest)]: the restriction
    mask has no name in the definition and is not used. *)
Definition Allowed (self : PedestrianCost) (edge : DirectedEdge)
           (restriction : Z) (uturn : bool) (dist2dest : float32) : bool :=
  negb (Z.land (forwardaccess edge) kPedestrianAccess =? 0)
  && negb uturn
  && negb (not_thru edge && gtb dist2dest (not_thru_distance_ self)).

(** [Allowed(node)]. *)
Definition Allowed_node (self : PedestrianCost) (node : NodeInfo) : bool :=
  negb (Z.land (access node) kPedestrianAccess =? 0).

Definition Get (self : PedestrianCost) (edge : DirectedEdge) : float32 :=
  match use edge with
  | kFootway => mul (length edge) (favorwalkways_ self)
  | _ => length edge
  end.

Definition Seconds (self : PedestrianCost) (edge : DirectedEdge) : float32 :=
  div (mul (length edge) lit_3_6) (walkingspeed_ self).

Definition AStarCostFactor (self : PedestrianCost) : float32 :=
  if ltb (favorwalkways_ self) lit_1_0 then favorwalkways_ self else lit_1_0.

Definition UnitSize (self : PedestrianCost) : float32 := lit_2_0.

(** The predicate [GetFilter] hands out: true for an edge to exclude. *)
Definition GetFilter (self : PedestrianCost) : DirectedEdge -> bool :=
  fun edge =>
    trans_up edge || trans_down edge
    || (Z.land (forwardaccess edge) kPedestrianAccess =? 0).

(** [CreatePedestrianCost]: [std::make_shared<PedestrianCost>(config)].
    The base class is initialised first, with the configuration; what it
    throws leaves the factory, and when it returns the members of
    [PedestrianCost] are initialised. *)
Definition CreatePedestrianCost (config : ptree) : outcome PedestrianCost :=
  match DynamicCost_ctor config with
  | Returned base_not_thru_distance =>
      Returned (PedestrianCost_ctor base_not_thru_distance config)
  | Thrown e => Thrown e
  end.

End Model.

(** The float a decimal number of the configuration is read as. *)
Definition float_of_decimal (q : Q) : float32 :=
  div (of_Z (Qnum q)) (of_Z (Zpos (Qden q))).

(** Modelled from the spec: the base-class initialiser
    [DynamicCost(config)] of thor/dynamiccost.cc.  The specification has
    the not-through tolerance distance among the parameters a
    configuration exposes (sections 4.1 and 6), gives an unset parameter
    a default, and has a negative tolerance rejected with a
    [ConfigurationError] (section 7).  It documents no default for the
    tolerance, which is an argument here; the key is named after the
    member. *)
Definition DynamicCost_from_spec (default : float32) (config : ptree)
  : outcome float32 :=
  match get "not_thru_distance" config with
  | None => Returned default
  | Some text =>
      match parse_number text with
      | Some q =>
          if Qle_bool 0 q then Returned (float_of_decimal q)
          else Thrown (ConfigurationError "not_thru_distance")
      | None => Thrown (ConfigurationError "not_thru_distance")
      end
  end.

End thor.

(** ** Concrete inputs

    Values on which the model is run: the access bit 2 for pedestrians, a
    tolerance of 5000 metres, and a few edges and configurations. *)

Module sample.

Definition kPedestrianAccess : Z := 2.

Definition not_thru_distance : float32 := of_Z 5000.

Definition strategy : thor.PedestrianCost :=
  thor.PedestrianCost_ctor not_thru_distance (PTree EmptyString []).

Definition empty_config : ptree := PTree EmptyString [].

(** A configuration that asks for a walking speed of -1 km/h. *)
Definition negative_speed_config : ptree :=
  PTree EmptyString [("walkingspeed"%string, PTree "-1" [])].

(** A configuration inside the documented domain that asks for other
    values than the built-in ones. *)
Definition fast_walker_config : ptree :=
  PTree EmptyString
        [("walkingspeed"%string, PTree "7.5" []);
         ("favorwalkways"%string, PTree "0.5" [])].



(** A configuration that asks for a tolerance of -5 metres. *)
Definition negative_tolerance_config : ptree :=
  PTree EmptyString [("not_thru_distance"%string, PTree "-5" [])].

Definition edge (len : Z) (u : Use) (nt : bool) (mask : Z) : DirectedEdge :=
  {| forwardaccess := mask;
     length := of_Z len;
     use := u;
     not_thru := nt;
     trans_up := false;
     trans_down := false |}.

Definition footway_100 : DirectedEdge := edge 100 kFootway false 2.
Definition footway_50 : DirectedEdge := edge 50 kFootway false 2.
Definition road_50 : DirectedEdge := edge 50 kRoad false 3.
Definition cul_de_sac : DirectedEdge := edge 120 kRoad true 2.
Definition motorway : DirectedEdge := edge 800 kRoad false 1.

End sample.

(** ** Round to nearest even, arithmetically

    What [SpecFloat]'s shift-and-round loop computes, written with
    integer division.  These are the terms in which the float operations
    of the costing are reasoned about. *)

Module rounding.

Section Definitions.

Variables prec emax : Z.

(** [M / D] rounded to the nearest integer, ties to even. *)
Definition rne_div (M D : Z) : Z :=
  let q := M / D in
  let R := M mod D in
  if (D <? 2 * R) || ((D =? 2 * R) && Z.odd q) then q + 1 else q.

(** The shift register of [SpecFloat] holds [M / D]: its mantissa is the
    quotient, its round bit says whether the remainder reaches one half,
    its sticky bit whether anything lies beyond the round bit. *)
Definition shr_state (M D : Z) (r : shr_record) : Prop :=
  shr_m r = M / D /\
  shr_r r = (D <=? 2 * (M mod D)) /\
  shr_s r = negb (2 * (M mod D) mod D =? 0).

(** The float made of a mantissa and an exponent, infinite when the
    exponent is out of range. *)
Definition round_result (m e : Z) : spec_float :=
  match m with
  | Z0 => S754_zero false
  | Zpos q =>
      if e <=? emax - prec then S754_finite false q e else S754_infinity false
  | Zneg _ => S754_nan
  end.

(** The renormalising shift after rounding. *)
Definition finish (r E : Z) : spec_float :=
  let k := Z.max 0 (fexp prec emax (Zdigits2 r + E) - E) in
  round_result (r / 2 ^ k) (E + k).

(** [M / D * 2^e] rounded to a float. *)
Definition round_div (M D e : Z) : spec_float :=
  let k := Z.max 0 (fexp prec emax (Zdigits2 (M / D) + e) - e) in
  finish (rne_div M (D * 2 ^ k)) (e + k).

(** The exponent and the numerator [SFdiv_core_binary] picks for the
    quotient of [mx * 2^ex] by [mf * 2^ef]. *)
Definition div_exponent (mx mf : positive) (ex ef : Z) : Z :=
  Z.min (fexp prec emax (Zdigits2 (Zpos mx) + ex - (Zdigits2 (Zpos mf) + ef)))
        (ex - ef).

Definition div_numerator (mx mf : positive) (ex ef : Z) : Z :=
  Zpos mx * 2 ^ (ex - ef - div_exponent mx mf ex ef).

End Definitions.

(** A float that is finite, above zero and valid: what a speed or a
    weighting factor is expected to be. *)
Definition positive_finite (x : float32) : bool :=
  match x with
  | S754_finite false _ _ => valid x
  | _ => false
  end.

(** The smallest float above zero, 2^-149. *)
Definition smallest_positive : float32 := S754_finite false 1 (-149).

End rounding.

(** ** Facts about rounding

    [SpecFloat] comes without lemmas.  What the costing claims need is
    small: rounding never changes the sign, and rounding a quantity that
    lies below a representable number never lands above that number. *)

Section RoundingFacts.

Variables prec emax : Z.

Lemma digits2_pos_bounds (p : positive) :
  2 ^ (Zpos (digits2_pos p) - 1) <= Zpos p < 2 ^ Zpos (digits2_pos p).
Proof.
  induction p as [p IH | p IH |]; cbn [digits2_pos]; [| | cbn; lia].
  all: rewrite Pos2Z.inj_succ, Z.pow_succ_r by lia.
  all: replace (Z.succ (Zpos (digits2_pos p)) - 1)
         with (Z.succ (Zpos (digits2_pos p) - 1)) by lia.
  all: rewrite Z.pow_succ_r by lia; lia.
Qed.

Lemma Zdigits2_le_of_lt_pow (m d : Z) :
  0 <= d -> 0 <= m < 2 ^ d -> Zdigits2 m <= d.
Proof.
  intros Hd [Hm0 Hm].
  destruct m as [| p | p]; cbn [Zdigits2]; try lia.
  destruct (digits2_pos_bounds p) as [Hlo _].
  destruct (Z_le_gt_dec (Zpos (digits2_pos p)) d) as [|Hgt]; [assumption|].
  exfalso.
  assert (2 ^ d <= 2 ^ (Zpos (digits2_pos p) - 1)) by (apply Z.pow_le_mono_r; lia).
  lia.
Qed.

Lemma fexp_mono (a b : Z) : a <= b -> fexp prec emax a <= fexp prec emax b.
Proof. unfold fexp. lia. Qed.

Lemma shr_1_halves (r : shr_record) :
  0 <= shr_m r -> 0 <= shr_m (shr_1 r) /\ 2 * shr_m (shr_1 r) <= shr_m r.
Proof.
  destruct r as [m b s]. destruct m as [| [p | p |] | p]; cbn; lia.
Qed.

Lemma iter_shr_1_bound (p : positive) :
  forall r : shr_record,
    0 <= shr_m r ->
    0 <= shr_m (iter_pos shr_1 p r) /\
    shr_m (iter_pos shr_1 p r) * 2 ^ Zpos p <= shr_m r.
Proof.
  induction p as [p IH | p IH |]; intros r Hr; cbn [iter_pos].
  - destruct (shr_1_halves r Hr) as [H0 H1].
    destruct (IH _ H0) as [H2 H3].
    destruct (IH _ H2) as [H4 H5].
    split; [assumption|].
    assert (Hp : 2 ^ Zpos p~1 = 2 * (2 ^ Zpos p * 2 ^ Zpos p)).
    { rewrite <- Z.pow_add_r, <- Z.pow_succ_r by lia. f_equal. lia. }
    rewrite Hp.
    assert (0 < 2 ^ Zpos p) by (apply Z.pow_pos_nonneg; lia).
    nia.
  - destruct (IH _ Hr) as [H2 H3].
    destruct (IH _ H2) as [H4 H5].
    split; [assumption|].
    assert (Hp : 2 ^ Zpos p~0 = 2 ^ Zpos p * 2 ^ Zpos p).
    { rewrite <- Z.pow_add_r by lia. f_equal. lia. }
    rewrite Hp.
    assert (0 < 2 ^ Zpos p) by (apply Z.pow_pos_nonneg; lia).
    nia.
  - destruct (shr_1_halves r Hr) as [H0 H1]. split; [assumption|].
    change (2 ^ 1) with 2. lia.
Qed.

(** What one call of [shr_fexp] does to a non-negative mantissa: the new
    exponent is the old one or the canonical one, whichever is larger,
    and the new mantissa is at most the old one scaled down. *)
Lemma shr_fexp_bound (m e : Z) (l : location) :
  0 <= m ->
  let '(r, e') := shr_fexp prec emax m e l in
  0 <= shr_m r /\
  e' = Z.max e (fexp prec emax (Zdigits2 m + e)) /\
  shr_m r * 2 ^ (e' - e) <= m.
Proof.
  intros Hm. unfold shr_fexp, shr.
  assert (Hrec : shr_m (shr_record_of_loc m l) = m)
    by (destruct l as [| []]; reflexivity).
  destruct (fexp prec emax (Zdigits2 m + e) - e) as [| n | n] eqn:Hn.
  - rewrite Hrec. replace (Z.max e _) with e by lia.
    rewrite Z.sub_diag. cbn. lia.
  - destruct (iter_shr_1_bound n (shr_record_of_loc m l)) as [H0 H1];
      [rewrite Hrec; assumption|].
    rewrite Hrec in H1.
    split; [assumption|]. split; [lia|].
    replace (e + Zpos n - e) with (Zpos n) by lia. assumption.
  - rewrite Hrec. replace (Z.max e _) with e by lia.
    rewrite Z.sub_diag. cbn. lia.
Qed.

Lemma round_nearest_even_bound (m : Z) (l : location) :
  m <= round_nearest_even m l <= m + 1.
Proof.
  destruct l as [| []]; cbn [round_nearest_even]; try lia.
  destruct (Z.even m); lia.
Qed.

Lemma nonneg_float_leb (x : spec_float) :
  nonneg_float x = true -> SFleb (S754_zero false) x = true.
Proof. destruct x as [s | [] | | [] m e]; cbn; congruence. Qed.

Lemma leb_zero_nonneg (x : spec_float) :
  SFleb (S754_zero false) x = true -> nonneg_float x = true.
Proof. destruct x as [s | [] | | [] m e]; cbn; congruence. Qed.

(** Rounding keeps a non-negative quantity non-negative. *)
Lemma binary_round_aux_nonneg (m e : Z) (l : location) :
  0 <= m -> nonneg_float (binary_round_aux prec emax false m e l) = true.
Proof.
  intros Hm. unfold binary_round_aux.
  pose proof (shr_fexp_bound m e l Hm) as H1.
  destruct (shr_fexp prec emax m e l) as [r1 e1].
  destruct H1 as [H1 _].
  pose proof (round_nearest_even_bound (shr_m r1) (loc_of_shr_record r1)) as Hr.
  set (m' := round_nearest_even (shr_m r1) (loc_of_shr_record r1)) in *.
  assert (Hm' : 0 <= m') by lia.
  pose proof (shr_fexp_bound m' e1 loc_Exact Hm') as H2.
  destruct (shr_fexp prec emax m' e1 loc_Exact) as [r2 e2].
  destruct H2 as [H2 _].
  destruct (shr_m r2) as [| q | q]; [reflexivity | | lia].
  destruct (e2 <=? emax - prec); reflexivity.
Qed.

(** Rounding a quantity that lies strictly below a representable number
    [mx * 2^ex] never lands above that number. *)
Lemma binary_round_aux_below (mx : positive) (ex m e : Z) :
  bounded prec emax mx ex = true ->
  0 <= m -> e <= ex -> m < Zpos mx * 2 ^ (ex - e) ->
  SFleb (binary_round_aux prec emax false m e loc_Exact)
        (S754_finite false mx ex) = true.
Proof.
  intros Hb Hm He Hlt.
  unfold bounded, canonical_mantissa in Hb.
  apply andb_prop in Hb. destruct Hb as [Hc Hmax].
  apply Z.eqb_eq in Hc. apply Z.leb_le in Hmax.
  set (d := Zpos (digits2_pos mx)) in *.
  destruct (digits2_pos_bounds mx) as [_ Hdx]. fold d in Hdx.
  assert (Hpow : forall a, a <= ex ->
            Zpos mx * 2 ^ (ex - a) < 2 ^ (d + (ex - a))).
  { intros a Ha. rewrite Z.pow_add_r by lia.
    assert (0 < 2 ^ (ex - a)) by (apply Z.pow_pos_nonneg; lia). nia. }
  assert (Hsplit : forall a b, a <= b -> b <= ex ->
            2 ^ (ex - a) = 2 ^ (ex - b) * 2 ^ (b - a)).
  { intros a b Hab Hbx. rewrite <- Z.pow_add_r by lia. f_equal. lia. }
  unfold binary_round_aux.
  pose proof (shr_fexp_bound m e loc_Exact Hm) as H1.
  destruct (shr_fexp prec emax m e loc_Exact) as [r1 e1].
  destruct H1 as [H10 [H1e H1m]].
  assert (Hd1 : Zdigits2 m + e <= d + ex).
  { pose proof (Zdigits2_le_of_lt_pow m (d + (ex - e))) as Hd.
    specialize (Hpow e He). lia. }
  pose proof (fexp_mono _ _ Hd1) as Hf1. rewrite Hc in Hf1.
  assert (He1 : e <= e1 <= ex) by lia.
  assert (Hm1 : shr_m r1 < Zpos mx * 2 ^ (ex - e1)).
  { rewrite (Hsplit e e1) in Hlt by lia.
    assert (0 < 2 ^ (e1 - e)) by (apply Z.pow_pos_nonneg; lia). nia. }
  pose proof (round_nearest_even_bound (shr_m r1) (loc_of_shr_record r1)) as Hr.
  set (m' := round_nearest_even (shr_m r1) (loc_of_shr_record r1)) in *.
  assert (Hm' : 0 <= m') by lia.
  pose proof (shr_fexp_bound m' e1 loc_Exact Hm') as H2.
  destruct (shr_fexp prec emax m' e1 loc_Exact) as [r2 e2].
  destruct H2 as [H20 [H2e H2m]].
  assert (Hd2 : Zdigits2 m' + e1 <= d + ex).
  { pose proof (Zdigits2_le_of_lt_pow m' (d + (ex - e1))) as Hd.
    specialize (Hpow e1 (proj2 He1)). lia. }
  pose proof (fexp_mono _ _ Hd2) as Hf2. rewrite Hc in Hf2.
  assert (He2 : e1 <= e2 <= ex) by lia.
  destruct (shr_m r2) as [| q | q] eqn:Hq; [reflexivity | | lia].
  replace (e2 <=? emax - prec) with true by (symmetry; apply Z.leb_le; lia).
  unfold SFleb, SFcompare.
  destruct (Z.compare_spec e2 ex) as [Heq | Hl | Hg]; [| reflexivity | lia].
  rewrite Heq in H2m.
  assert (Hqm : Zpos q <= Zpos mx).
  { assert (HP : 0 < 2 ^ (ex - e1)) by (apply Z.pow_pos_nonneg; lia).
    apply (Z.mul_le_mono_pos_r _ _ _ HP). lia. }
  change (Pos.compare_cont Eq q mx) with (Pos.compare q mx).
  destruct (Pos.compare_spec q mx); [reflexivity | reflexivity | lia].
Qed.

(** The comparison of two floats, read in the other direction. *)
Lemma SFcompare_swap (x y : spec_float) :
  SFcompare y x = option_map CompOpp (SFcompare x y).
Proof.
  destruct x as [sx | sx | | sx mx ex], y as [sy | sy | | sy my ey];
    cbn; try reflexivity;
    try (destruct sx; reflexivity); try (destruct sy; reflexivity);
    try (destruct sx, sy; reflexivity).
  change (Pos.compare_cont Eq my mx) with (Pos.compare my mx).
  change (Pos.compare_cont Eq mx my) with (Pos.compare mx my).
  rewrite (Z.compare_antisym ex ey), (Pos.compare_antisym mx my).
  destruct sx, sy; try reflexivity;
    destruct (ex ?= ey); cbn; try reflexivity;
    destruct (mx ?= my)%positive; reflexivity.
Qed.

Lemma SFleb_not_gt (x y : spec_float) :
  SFleb x y = true -> SFltb y x = false.
Proof.
  unfold SFleb, SFltb. rewrite (SFcompare_swap x y).
  destruct (SFcompare x y) as [[] |]; cbn; congruence.
Qed.

Lemma SFleb_refl (x : spec_float) :
  x <> S754_nan -> SFleb x x = true.
Proof.
  intros Hx. unfold SFleb.
  destruct x as [s | [] | | [] m e]; cbn; try reflexivity; try congruence;
    rewrite Z.compare_refl;
    change (Pos.compare_cont Eq m m) with (Pos.compare m m);
    rewrite Pos.compare_refl; reflexivity.
Qed.

Lemma nonneg_float_not_nan (x : spec_float) :
  nonneg_float x = true -> x <> S754_nan.
Proof. destruct x; cbn; congruence. Qed.

Lemma SFmul_comm (x y : spec_float) :
  SFmul prec emax x y = SFmul prec emax y x.
Proof.
  destruct x as [sx | sx | | sx mx ex], y as [sy | sy | | sy my ey];
    cbn; try reflexivity; try (rewrite (xorb_comm sx sy); reflexivity).
  rewrite (xorb_comm sx sy), (Pos.mul_comm mx my), (Z.add_comm ex ey).
  reflexivity.
Qed.

End RoundingFacts.

(** ** Facts about the float operations the costing uses *)

Section OperationFacts.

(** The literals are the decimal numbers of the source rounded to the
    nearest float, and they are valid floats. *)
Example literals_rounded :
  lit_0_9 = div (of_Z 9) (of_Z 10) /\
  lit_5_1 = div (of_Z 51) (of_Z 10) /\
  lit_3_6 = div (of_Z 36) (of_Z 10) /\
  lit_2_0 = of_Z 2 /\ lit_1_0 = of_Z 1.
Proof. repeat split. Qed.

Example literals_valid :
  forallb valid [lit_0_9; lit_5_1; lit_3_6; lit_2_0; lit_1_0] = true.
Proof. reflexivity. Qed.

Lemma mul_finite_nonneg (x : float32) (my : positive) (ey : Z) :
  nonneg_float x = true ->
  nonneg_float (mul x (S754_finite false my ey)) = true.
Proof.
  destruct x as [s | [] | | [] mx ex]; cbn -[binary_round_aux];
    try congruence; intros _; try reflexivity.
  apply binary_round_aux_nonneg. lia.
Qed.

Lemma div_finite_nonneg (x : float32) (my : positive) (ey : Z) :
  nonneg_float x = true ->
  nonneg_float (div x (S754_finite false my ey)) = true.
Proof.
  destruct x as [s | [] | | [] mx ex]; cbn -[SFdiv_core_binary];
    try congruence; intros _; try reflexivity.
  unfold SFdiv_core_binary.
  set (s := ex - ey - _).
  set (m' := match s with Z0 => Zpos mx | Zpos _ => Z.shiftl (Zpos mx) s | Zneg _ => 0 end).
  assert (Hm' : 0 <= m').
  { subst m'. destruct s; try lia. apply Z.shiftl_nonneg. lia. }
  destruct (Z.div_eucl m' (Zpos my)) as [q r] eqn:Hqr.
  apply binary_round_aux_nonneg.
  assert (Hq : q = m' / Zpos my) by (unfold Z.div; rewrite Hqr; reflexivity).
  rewrite Hq. apply Z.div_pos; lia.
Qed.

(** Scaling a valid non-negative float by [0.9f] does not go above it. *)
Lemma mul_0_9_below (x : float32) :
  valid x = true -> nonneg_float x = true ->
  leb (mul lit_0_9 x) x = true.
Proof.
  destruct x as [s | [] | | [] mx ex]; intros Hv Hn;
    try discriminate Hn; try reflexivity.
  change (mul lit_0_9 (S754_finite false mx ex))
    with (binary_round_aux prec emax false
            (Zpos (15099494 * mx)) (-24 + ex) loc_Exact).
  apply binary_round_aux_below; try assumption; try lia.
  replace (ex - (-24 + ex)) with 24 by lia.
  change (2 ^ 24) with 16777216. lia.
Qed.

End OperationFacts.

(** ** Properties of the pedestrian costing *)

Import thor.

Section Claims.

Variable kPedestrianAccess : Z.

(** What the base-class initialiser left in [not_thru_distance_] of the
    strategy at hand, any value; and the base-class initialiser itself,
    any function of the configuration. *)
Variable DynamicCost_not_thru_distance : float32.
Variable DynamicCost_ctor : ptree -> outcome float32.

Local Abbreviation PedestrianCost_ctor :=
  (thor.PedestrianCost_ctor DynamicCost_not_thru_distance).
Local Abbreviation CreatePedestrianCost :=
  (thor.CreatePedestrianCost DynamicCost_ctor).
Local Abbreviation Allowed := (thor.Allowed kPedestrianAccess).
Local Abbreviation Allowed_node := (thor.Allowed_node kPedestrianAccess).
Local Abbreviation GetFilter := (thor.GetFilter kPedestrianAccess).

Lemma well_formed_inv (edge : DirectedEdge) :
  well_formed edge = true ->
  valid (length edge) = true /\ nonneg_float (length edge) = true.
Proof.
  unfold well_formed, geb, zero. intros H.
  apply andb_prop in H. destruct H as [Hv Hz].
  split; [assumption | apply leb_zero_nonneg; assumption].
Qed.

Lemma AStarCostFactor_default (config : ptree) :
  AStarCostFactor (PedestrianCost_ctor config) = lit_0_9.
Proof. reflexivity. Qed.

(** C1. With the strategy the factory builds, the A* factor is 0.9f,
    and for every well-formed edge (a float length that is not below
    zero) the factor times the edge's length is at most [Get(edge)];
    a footway edge of length 100 costs 90, and 0.9f * 100 <= 90. *)
Theorem C1_astar_admissible (config : ptree) (edge : DirectedEdge) :
  well_formed edge = true ->
  AStarCostFactor (PedestrianCost_ctor config) = lit_0_9 /\
  leb (mul (AStarCostFactor (PedestrianCost_ctor config)) (length edge))
      (Get (PedestrianCost_ctor config) edge) = true /\
  (use edge = kFootway -> length edge = of_Z 100 ->
   Get (PedestrianCost_ctor config) edge = of_Z 90 /\
   leb (mul lit_0_9 (of_Z 100)) (of_Z 90) = true).
Proof.
  intros Hwf. destruct (well_formed_inv edge Hwf) as [Hv Hn].
  split; [reflexivity|]. split.
  - rewrite AStarCostFactor_default. unfold Get.
    assert (Hfoot : leb (mul lit_0_9 (length edge))
                        (mul (length edge) lit_0_9) = true).
    { unfold mul. rewrite (SFmul_comm prec emax lit_0_9 (length edge)).
      apply SFleb_refl, nonneg_float_not_nan.
      apply (mul_finite_nonneg (length edge) 15099494 (-24) Hn). }
    destruct (use edge); cbn [favorwalkways_ thor.PedestrianCost_ctor];
      try (apply mul_0_9_below; assumption).
    exact Hfoot.
  - intros Hu Hl. unfold Get. rewrite Hu, Hl. split; reflexivity.
Qed.

(** The comparison in C1 is between floats, as a caller computes them.
    Before rounding, the product of the factor and the length can lie
    above the rounded cost, by less than a unit in the last place: for a
    footway of length 3 the cost is 11324620 * 2^-22, and 3 times the
    number 0.9f denotes is 45298482 * 2^-24, half a unit more. *)
Remark footway_cost_is_rounded :
  Get (PedestrianCost_ctor (PTree EmptyString []))
      {| forwardaccess := 0; length := of_Z 3; use := kFootway;
         not_thru := false; trans_up := false; trans_down := false |}
  = S754_finite false 11324620 (-22) /\
  to_Q lit_0_9 = Some (15099494 # 16777216)%Q /\
  (11324620 # 4194304 < 3 * (15099494 # 16777216))%Q.
Proof. repeat split. Qed.

(** C3. On a not-through edge that pedestrians may enter, and for a move
    that is not a U-turn, [Allowed] is true when the distance is at most
    the tolerance, true in particular when it equals the tolerance, and
    false when the distance is greater than the tolerance. *)
Theorem C3_not_thru_tolerance (self : PedestrianCost) (edge : DirectedEdge)
        (restriction : Z) (dist2dest : float32) :
  not_thru edge = true ->
  Z.land (forwardaccess edge) kPedestrianAccess <> 0 ->
  (leb dist2dest (not_thru_distance_ self) = true ->
   Allowed self edge restriction false dist2dest = true) /\
  (eqb dist2dest (not_thru_distance_ self) = true ->
   Allowed self edge restriction false dist2dest = true) /\
  (gtb dist2dest (not_thru_distance_ self) = true ->
   Allowed self edge restriction false dist2dest = false).
Proof.
  intros Hnt Hacc. unfold thor.Allowed. rewrite Hnt.
  apply Z.eqb_neq in Hacc. rewrite Hacc. cbn [negb andb].
  assert (Hle : leb dist2dest (not_thru_distance_ self) = true ->
                gtb dist2dest (not_thru_distance_ self) = false).
  { unfold leb, gtb. apply SFleb_not_gt. }
  repeat split.
  - intros H. rewrite (Hle H). reflexivity.
  - intros H. rewrite Hle; [reflexivity|].
    unfold eqb, SFeqb in H. unfold leb, SFleb.
    destruct (SFcompare dist2dest (not_thru_distance_ self)) as [[] |];
      congruence.
  - intros H. rewrite H. reflexivity.
Qed.

(** C4. A U-turn is never allowed, whatever the edge, the restriction
    mask and the distance. *)
Theorem C4_uturn_rejected (self : PedestrianCost) (edge : DirectedEdge)
        (restriction : Z) (dist2dest : float32) :
  Allowed self edge restriction true dist2dest = false.
Proof.
  unfold thor.Allowed. cbn [negb]. rewrite andb_false_r. reflexivity.
Qed.

(** C5. An edge without the pedestrian bit in its forward access mask is
    never allowed; and setting that bit, everything else unchanged,
    keeps an allowed edge allowed. *)
Theorem C5_access_monotone (self : PedestrianCost) (edge : DirectedEdge)
        (restriction : Z) (uturn : bool) (dist2dest : float32) :
  (Z.land (forwardaccess edge) kPedestrianAccess = 0 ->
   Allowed self edge restriction uturn dist2dest = false) /\
  (Allowed self edge restriction uturn dist2dest = true ->
   Allowed self
           (with_forwardaccess edge
              (Z.lor (forwardaccess edge) kPedestrianAccess))
           restriction uturn dist2dest = true).
Proof.
  unfold thor.Allowed. split.
  - intros H. rewrite H. reflexivity.
  - cbn [forwardaccess not_thru with_forwardaccess]. intros H.
    apply andb_prop in H. destruct H as [H Hnt].
    apply andb_prop in H. destruct H as [Hacc Hu].
    rewrite Hu, Hnt, !andb_true_r.
    apply negb_true_iff in Hacc. apply Z.eqb_neq in Hacc.
    apply negb_true_iff, Z.eqb_neq. intros Hk. apply Hacc.
    replace (Z.land (Z.lor (forwardaccess edge) kPedestrianAccess)
                    kPedestrianAccess)
      with kPedestrianAccess in Hk.
    + rewrite Hk. apply Z.land_0_r.
    + symmetry. apply Z.bits_inj'. intros n Hn.
      rewrite Z.land_spec, Z.lor_spec.
      destruct (Z.testbit kPedestrianAccess n), (Z.testbit (forwardaccess edge) n);
        reflexivity.
Qed.

(** C6. An edge the location filter does not exclude has the pedestrian
    bit in its forward access mask, so for such an edge [Allowed] is
    decided by the U-turn and not-through tests alone. *)
Theorem C6_filter_agrees (self : PedestrianCost) (edge : DirectedEdge) :
  GetFilter self edge = false ->
  Z.land (forwardaccess edge) kPedestrianAccess <> 0 /\
  forall (restriction : Z) (uturn : bool) (dist2dest : float32),
    Allowed self edge restriction uturn dist2dest =
    negb uturn
    && negb (not_thru edge && gtb dist2dest (not_thru_distance_ self)).
Proof.
  unfold thor.GetFilter, thor.Allowed. intros H.
  apply orb_false_iff in H. destruct H as [_ H].
  split; [apply Z.eqb_neq; assumption|].
  intros. rewrite H. reflexivity.
Qed.

(** C7. The restriction mask has no influence on [Allowed]. *)
Theorem C7_restriction_ignored (self : PedestrianCost) (edge : DirectedEdge)
        (r1 r2 : Z) (uturn : bool) (dist2dest : float32) :
  Allowed self edge r1 uturn dist2dest = Allowed self edge r2 uturn dist2dest.
Proof. reflexivity. Qed.

(** C8. With the strategy the factory builds, an edge of length 50 is
    walked in (50 * 3.6f) / 5.1f seconds, which is the float
    9252141 * 2^-18: within one unit in the last place of the rational
    50 * 3.6 / 5.1 and between 35.29 and 35.30.  If the edge is a
    footway its cost is 45, if it is a road its cost is 50. *)
Theorem C8_scenarios (config : ptree) (edge : DirectedEdge) :
  length edge = of_Z 50 ->
  Seconds (PedestrianCost_ctor config) edge = div (mul (of_Z 50) lit_3_6) lit_5_1 /\
  to_Q (Seconds (PedestrianCost_ctor config) edge) = Some (9252141 # 262144)%Q /\
  ((50 * (36 # 10) / (51 # 10) - (1 # 262144) < 9252141 # 262144)%Q /\
   (9252141 # 262144 < 50 * (36 # 10) / (51 # 10) + (1 # 262144))%Q) /\
  ((3529 # 100 <= 9252141 # 262144)%Q /\ (9252141 # 262144 < 3530 # 100)%Q) /\
  (use edge = kFootway -> Get (PedestrianCost_ctor config) edge = of_Z 45) /\
  (use edge = kRoad -> Get (PedestrianCost_ctor config) edge = of_Z 50).
Proof.
  intros Hl. unfold Seconds, Get. rewrite Hl.
  repeat split; try reflexivity.
  - discriminate.
  - intros Hu. rewrite Hu. reflexivity.
  - intros Hu. rewrite Hu. reflexivity.
Qed.

(** C9. With the strategy the factory builds, for every edge whose
    length is not below zero, [Get] and [Seconds] are not below zero;
    and [UnitSize] is 2.0f, which is above zero. *)
Theorem C9_non_negative (config : ptree) (edge : DirectedEdge) :
  geb (length edge) zero = true ->
  geb (Get (PedestrianCost_ctor config) edge) zero = true /\
  geb (Seconds (PedestrianCost_ctor config) edge) zero = true /\
  UnitSize (PedestrianCost_ctor config) = lit_2_0 /\
  gtb (UnitSize (PedestrianCost_ctor config)) zero = true.
Proof.
  unfold geb, zero. intros Hl.
  pose proof (leb_zero_nonneg _ Hl) as Hn.
  split; [| split; [| split; reflexivity]].
  - unfold Get.
    destruct (use edge); try assumption.
    apply nonneg_float_leb. cbn [favorwalkways_ thor.PedestrianCost_ctor].
    apply (mul_finite_nonneg (length edge) 15099494 (-24) Hn).
  - unfold Seconds. apply nonneg_float_leb.
    cbn [walkingspeed_ thor.PedestrianCost_ctor].
    apply (div_finite_nonneg _ 10695475 (-21)).
    apply (mul_finite_nonneg (length edge) 15099494 (-22) Hn).
Qed.

(** C2, as the code has it.  The factory fails exactly when the
    base-class initialiser [DynamicCost(config)] fails, and then with the
    error of the base class: the constructor of [PedestrianCost] itself
    rejects no configuration, inside the documented domain or not. *)
Theorem C2_construction_fails_in_base_only (config : ptree) :
  (forall e : exception,
      DynamicCost_ctor config = Thrown e ->
      CreatePedestrianCost config = Thrown e) /\
  (forall d : float32,
      DynamicCost_ctor config = Returned d ->
      exists s : PedestrianCost, CreatePedestrianCost config = Returned s) /\
  (forall e : exception,
      CreatePedestrianCost config = Thrown e ->
      DynamicCost_ctor config = Thrown e).
Proof.
  unfold thor.CreatePedestrianCost.
  destruct (DynamicCost_ctor config) as [d | e0].
  - split; [intros e H; discriminate H|].
    split; [intros d' _; eexists; reflexivity|].
    intros e H. discriminate H.
  - split; [intros e H; injection H as ->; reflexivity|].
    split; [intros d H; discriminate H|].
    intros e H. injection H as ->. reflexivity.
Qed.


End Claims.

(** ** The properties at concrete inputs *)

Lemma C1_astar_admissible_witness :
  well_formed sample.footway_100 = true /\
  leb (mul (AStarCostFactor sample.strategy) (length sample.footway_100))
      (Get sample.strategy sample.footway_100) = true /\
  Get sample.strategy sample.footway_100 = of_Z 90.
Proof.
  pose proof (C1_astar_admissible sample.not_thru_distance sample.empty_config
                                  sample.footway_100 eq_refl) as H.
  destruct H as [_ [Hle Hfoot]].
  split; [reflexivity|]. split; [exact Hle|].
  exact (proj1 (Hfoot eq_refl eq_refl)).
Defined.

Lemma C3_not_thru_tolerance_witness :
  not_thru sample.cul_de_sac = true /\
  Z.land (forwardaccess sample.cul_de_sac) sample.kPedestrianAccess <> 0 /\
  thor.Allowed sample.kPedestrianAccess sample.strategy sample.cul_de_sac 0
               false (of_Z 5000) = true /\
  thor.Allowed sample.kPedestrianAccess sample.strategy sample.cul_de_sac 0
               false (of_Z 5001) = false.
Proof.
  assert (Hacc : Z.land (forwardaccess sample.cul_de_sac)
                        sample.kPedestrianAccess <> 0) by discriminate.
  split; [reflexivity|]. split; [exact Hacc|]. split.
  - apply (C3_not_thru_tolerance sample.kPedestrianAccess sample.strategy
             sample.cul_de_sac 0 (of_Z 5000) eq_refl Hacc).
    reflexivity.
  - apply (C3_not_thru_tolerance sample.kPedestrianAccess sample.strategy
             sample.cul_de_sac 0 (of_Z 5001) eq_refl Hacc).
    reflexivity.
Defined.

Lemma C5_access_monotone_witness :
  Z.land (forwardaccess sample.motorway) sample.kPedestrianAccess = 0 /\
  thor.Allowed sample.kPedestrianAccess sample.strategy sample.motorway 0
               false (of_Z 10) = false /\
  thor.Allowed sample.kPedestrianAccess sample.strategy
               (with_forwardaccess sample.road_50
                  (Z.lor (forwardaccess sample.road_50) sample.kPedestrianAccess))
               0 false (of_Z 10) = true.
Proof.
  split; [reflexivity|]. split.
  - apply (C5_access_monotone sample.kPedestrianAccess sample.strategy
             sample.motorway 0 false (of_Z 10)).
    reflexivity.
  - apply (C5_access_monotone sample.kPedestrianAccess sample.strategy
             sample.road_50 0 false (of_Z 10)).
    reflexivity.
Defined.

Lemma C6_filter_agrees_witness :
  thor.GetFilter sample.kPedestrianAccess sample.strategy sample.road_50 = false /\
  Z.land (forwardaccess sample.road_50) sample.kPedestrianAccess <> 0.
Proof.
  split; [reflexivity|].
  apply (C6_filter_agrees sample.kPedestrianAccess sample.strategy
           sample.road_50 eq_refl).
Defined.

Lemma C8_scenarios_witness :
  length sample.footway_50 = of_Z 50 /\
  Get sample.strategy sample.footway_50 = of_Z 45 /\
  to_Q (Seconds sample.strategy sample.footway_50) = Some (9252141 # 262144)%Q.
Proof.
  pose proof (C8_scenarios sample.not_thru_distance sample.empty_config
                           sample.footway_50 eq_refl) as H.
  destruct H as [_ [Hq [_ [_ [Hfoot _]]]]].
  split; [reflexivity|]. split; [exact (Hfoot eq_refl) | exact Hq].
Defined.

Lemma C9_non_negative_witness :
  geb (length sample.road_50) zero = true /\
  geb (Get sample.strategy sample.road_50) zero = true /\
  geb (Seconds sample.strategy sample.road_50) zero = true.
Proof.
  pose proof (C9_non_negative sample.not_thru_distance sample.empty_config
                              sample.road_50 eq_refl) as H.
  destruct H as [Hg [Hs _]].
  split; [reflexivity|]. split; [exact Hg | exact Hs].
Defined.

(** A configuration inside the documented domain that asks for a walking
    speed of 7.5 km/h is served with 5.1 km/h all the same. *)
Example fast_walker_ignored :
  in_valid_domain sample.fast_walker_config = true /\
  thor.CreatePedestrianCost
    (thor.DynamicCost_from_spec sample.not_thru_distance)
    sample.fast_walker_config
  = Returned sample.strategy /\
  walkingspeed_ sample.strategy = lit_5_1.
Proof. repeat split. Qed.

(** The base class of the specification rejects a negative tolerance, and
    the factory passes the error on. *)
Example negative_tolerance_rejected_by_base :
  in_valid_domain sample.negative_tolerance_config = false /\
  thor.CreatePedestrianCost
    (thor.DynamicCost_from_spec sample.not_thru_distance)
    sample.negative_tolerance_config
  = Thrown (ConfigurationError "not_thru_distance").
Proof. split; reflexivity. Qed.

(** C2, as the specification states it, fails: the configuration that
    asks for a walking speed of -1 km/h is outside the documented domain,
    and yet the factory returns a strategy for it whenever the base-class
    initialiser returns; it does so in particular with the base class of
    the specification, and then throws nothing. *)
Lemma C2_negative_speed_accepted :
  in_valid_domain sample.negative_speed_config = false /\
  (forall (DynamicCost_ctor : ptree -> outcome float32) (d : float32),
      DynamicCost_ctor sample.negative_speed_config = Returned d ->
      thor.CreatePedestrianCost DynamicCost_ctor sample.negative_speed_config
      = Returned (thor.PedestrianCost_ctor d sample.negative_speed_config)) /\
  thor.CreatePedestrianCost
    (thor.DynamicCost_from_spec sample.not_thru_distance)
    sample.negative_speed_config
  = Returned sample.strategy /\
  (forall what : string,
      thor.CreatePedestrianCost
        (thor.DynamicCost_from_spec sample.not_thru_distance)
        sample.negative_speed_config
      <> Thrown (ConfigurationError what)).
Proof.
  split; [reflexivity|]. split.
  - intros ctor d H. unfold thor.CreatePedestrianCost. rewrite H. reflexivity.
  - split; [reflexivity | discriminate].
Qed.



(** ** Rounding, exactly

    The shift loop of [SpecFloat] computes a quotient rounded to the
    nearest integer, ties to even; from this follow the validity of the
    results of the float operations and their monotonicity. *)

Section ShiftRegister.

Import rounding.

Lemma shr_1_spec (r : shr_record) :
  0 <= shr_m r ->
  shr_1 r = {| shr_m := shr_m r / 2; shr_r := Z.odd (shr_m r);
               shr_s := shr_r r || shr_s r |}.
Proof.
  destruct r as [m b s]. cbn [shr_m shr_r shr_s]. intros Hm.
  rewrite <- Z.div2_div.
  destruct m as [| [p | p |] | p]; try reflexivity. lia.
Qed.

Lemma shr_state_step (M D : Z) (r : shr_record) :
  0 <= M -> 0 < D -> shr_state M D r -> shr_state M (D * 2) (shr_1 r).
Proof.
  intros HM HP (Hq & Hr & Hs).
  assert (Hq0 : 0 <= shr_m r) by (rewrite Hq; apply Z.div_pos; lia).
  rewrite (shr_1_spec r Hq0). unfold shr_state. cbn [shr_m shr_r shr_s].
  rewrite Hq, Hr, Hs.
  pose proof (Z.div_mod M D ltac:(lia)) as Hdm.
  pose proof (Z.mod_pos_bound M D HP) as HR.
  set (q := M / D) in *. set (R := M mod D) in *.
  pose proof (Z.div_mod q 2 ltac:(lia)) as Hdq.
  pose proof (Z.mod_pos_bound q 2 ltac:(lia)) as Hb.
  set (q' := q / 2) in *. set (b := q mod 2) in *.
  assert (Hdiv : M / (D * 2) = q').
  { symmetry. apply (Z.div_unique_pos M (D * 2) q' (D * b + R)); nia. }
  assert (Hmod : M mod (D * 2) = D * b + R).
  { symmetry. apply (Z.mod_unique_pos M (D * 2) q' (D * b + R)); nia. }
  rewrite Hdiv, Hmod.
  assert (Hodd : Z.odd q = (b =? 1)).
  { rewrite Hdq, Z.add_comm, Z.odd_add_mul_2.
    assert (Hb01 : b = 0 \/ b = 1) by lia.
    destruct Hb01 as [-> | ->]; reflexivity. }
  split; [reflexivity|]. split.
  - rewrite Hodd.
    destruct (Z.eqb_spec b 1); destruct (Z.leb_spec (D * 2) (2 * (D * b + R)));
      try reflexivity; nia.
  - assert (Hm2 : 2 * (D * b + R) mod (D * 2) = 2 * R).
    { symmetry. apply (Z.mod_unique_pos _ (D * 2) b (2 * R)); nia. }
    rewrite Hm2.
    destruct (Z.leb_spec D (2 * R)); cbn [orb].
    + destruct (Z.eqb_spec (2 * R) 0); [lia | reflexivity].
    + rewrite (Z.mod_small (2 * R) D) by lia. reflexivity.
Qed.

Lemma shr_state_iter (M : Z) (p : positive) :
  0 <= M ->
  forall (D : Z) (r : shr_record),
    0 < D -> shr_state M D r ->
    shr_state M (D * 2 ^ Zpos p) (iter_pos shr_1 p r).
Proof.
  intros HM. induction p as [p IH | p IH |]; intros D r HD Hst; cbn [iter_pos].
  - assert (HP : 0 < 2 ^ Zpos p) by (apply Z.pow_pos_nonneg; lia).
    replace (D * 2 ^ Zpos p~1) with (D * 2 * 2 ^ Zpos p * 2 ^ Zpos p).
    2:{ assert (Hp : 2 ^ Zpos p~1 = 2 * (2 ^ Zpos p * 2 ^ Zpos p)).
        { rewrite <- Z.pow_add_r, <- Z.pow_succ_r by lia. f_equal. lia. }
        rewrite Hp. ring. }
    apply IH; [nia|]. apply IH; [lia|]. apply shr_state_step; assumption.
  - assert (HP : 0 < 2 ^ Zpos p) by (apply Z.pow_pos_nonneg; lia).
    replace (D * 2 ^ Zpos p~0) with (D * 2 ^ Zpos p * 2 ^ Zpos p).
    2:{ assert (Hp : 2 ^ Zpos p~0 = 2 ^ Zpos p * 2 ^ Zpos p).
        { rewrite <- Z.pow_add_r by lia. f_equal. lia. }
        rewrite Hp. ring. }
    apply IH; [nia|]. apply IH; assumption.
  - change (2 ^ 1) with 2. apply shr_state_step; assumption.
Qed.

Lemma shr_state_init (m : Z) :
  shr_state m 1 (shr_record_of_loc m loc_Exact).
Proof.
  unfold shr_state. cbn [shr_record_of_loc shr_m shr_r shr_s].
  rewrite Z.div_1_r, Z.mod_1_r. repeat split.
Qed.

Lemma shr_state_round (M D : Z) (r : shr_record) :
  0 <= M -> 0 < D -> shr_state M D r ->
  round_nearest_even (shr_m r) (loc_of_shr_record r) = rne_div M D.
Proof.
  intros HM HP (Hq & Hr & Hs). unfold rne_div.
  destruct r as [q b s]. cbn [shr_m shr_r shr_s] in *. subst q b s.
  pose proof (Z.mod_pos_bound M D HP) as HR.
  set (R := M mod D) in *.
  rewrite <- Z.negb_even.
  destruct (Z.leb_spec D (2 * R)) as [Hle | Hlt].
  - assert (Hm2 : (2 * R) mod D = 2 * R - D).
    { symmetry. apply (Z.mod_unique_pos _ D 1 (2 * R - D)); lia. }
    rewrite Hm2.
    destruct (Z.eqb_spec (2 * R - D) 0) as [H0 | H0];
      cbn [negb loc_of_shr_record round_nearest_even].
    + replace (D <? 2 * R) with false by (symmetry; apply Z.ltb_ge; lia).
      replace (D =? 2 * R) with true by (symmetry; apply Z.eqb_eq; lia).
      cbn [orb andb]. destruct (Z.even (M / D)); reflexivity.
    + replace (D <? 2 * R) with true by (symmetry; apply Z.ltb_lt; lia).
      reflexivity.
  - replace (D <? 2 * R) with false by (symmetry; apply Z.ltb_ge; lia).
    replace (D =? 2 * R) with false by (symmetry; apply Z.eqb_neq; lia).
    cbn [orb andb].
    destruct (negb (2 * R mod D =? 0)); reflexivity.
Qed.

Lemma rne_div_bounds (M D : Z) :
  M / D <= rne_div M D <= M / D + 1.
Proof.
  unfold rne_div.
  destruct ((D <? 2 * (M mod D)) || _); lia.
Qed.

Lemma rne_div_scale (M D T : Z) :
  0 < D -> 0 < T -> rne_div (M * T) (D * T) = rne_div M D.
Proof.
  intros HD HT. unfold rne_div.
  rewrite Z.div_mul_cancel_r by lia.
  rewrite Z.mul_mod_distr_r by lia.
  set (R := M mod D).
  replace (D * T <? 2 * (R * T)) with (D <? 2 * R).
  2:{ destruct (Z.ltb_spec D (2 * R)); destruct (Z.ltb_spec (D * T) (2 * (R * T)));
      try reflexivity; nia. }
  replace (D * T =? 2 * (R * T)) with (D =? 2 * R).
  2:{ destruct (Z.eqb_spec D (2 * R)); destruct (Z.eqb_spec (D * T) (2 * (R * T)));
      try reflexivity; nia. }
  reflexivity.
Qed.

Lemma rne_div_mono (a b D : Z) :
  0 < D -> a <= b -> rne_div a D <= rne_div b D.
Proof.
  intros HP Hab.
  pose proof (Z.div_le_mono a b D HP Hab) as Hq.
  destruct (Z.eq_dec (a / D) (b / D)) as [Heq | Hne].
  - unfold rne_div. rewrite <- Heq.
    pose proof (Z.div_mod a D ltac:(lia)) as Ha.
    pose proof (Z.div_mod b D ltac:(lia)) as Hb.
    rewrite <- Heq in Hb.
    set (q := a / D) in *.
    set (Ra := a mod D) in *. set (Rb := b mod D) in *.
    assert (HR : Ra <= Rb) by lia.
    destruct (Z.ltb_spec D (2 * Ra)); destruct (Z.ltb_spec D (2 * Rb));
      destruct (Z.eqb_spec D (2 * Ra)); destruct (Z.eqb_spec D (2 * Rb));
      cbn [orb andb]; destruct (Z.odd q); cbn [orb andb]; lia.
  - pose proof (rne_div_bounds a D). pose proof (rne_div_bounds b D). lia.
Qed.

End ShiftRegister.

Lemma Zdigits2_ge_of_pow_le (m d : Z) :
  2 ^ (d - 1) <= m -> 1 <= d -> d <= Zdigits2 m.
Proof.
  intros Hm Hd.
  assert (0 < 2 ^ (d - 1)) by (apply Z.pow_pos_nonneg; lia).
  destruct m as [| p | p]; try lia. cbn [Zdigits2].
  destruct (digits2_pos_bounds p) as [_ Hhi].
  destruct (Z_le_gt_dec d (Zpos (digits2_pos p))) as [|Hgt]; [assumption|].
  exfalso.
  assert (2 ^ Zpos (digits2_pos p) <= 2 ^ (d - 1)) by (apply Z.pow_le_mono_r; lia).
  lia.
Qed.

Lemma Zdigits2_pos_bounds (m : Z) :
  0 < m -> 1 <= Zdigits2 m /\ 2 ^ (Zdigits2 m - 1) <= m < 2 ^ Zdigits2 m.
Proof.
  destruct m as [| p | p]; try lia. intros _. cbn [Zdigits2].
  split; [lia | apply digits2_pos_bounds].
Qed.

Section RoundingToNearest.

Import rounding.

Variables prec emax : Z.
Hypothesis prec_pos : 1 <= prec.

Local Abbreviation fe := (fexp prec emax).
Local Abbreviation emin := (3 - emax - prec).
Local Abbreviation round_result := (rounding.round_result prec emax).
Local Abbreviation finish := (rounding.finish prec emax).
Local Abbreviation round_div := (rounding.round_div prec emax).
Local Abbreviation div_exponent := (rounding.div_exponent prec emax).
Local Abbreviation div_numerator := (rounding.div_numerator prec emax).

Lemma binary_round_aux_spec (M D e : Z) (l : location) :
  0 <= M -> 0 < D ->
  shr_state M D (shr_record_of_loc (M / D) l) ->
  binary_round_aux prec emax false (M / D) e l = round_div M D e.
Proof.
  intros HM HD Hst. unfold binary_round_aux, round_div, finish. cbv zeta.
  set (n := fe (Zdigits2 (M / D) + e) - e).
  assert (H1 : let '(r, e') := shr_fexp prec emax (M / D) e l in
               e' = e + Z.max 0 n /\ shr_state M (D * 2 ^ Z.max 0 n) r).
  { unfold shr_fexp, shr. fold n. destruct n as [| p | p].
    - cbn [Z.max Z.compare]. change (2 ^ 0) with 1. rewrite Z.mul_1_r.
      split; [lia | assumption].
    - replace (Z.max 0 (Zpos p)) with (Zpos p) by lia.
      split; [lia|]. apply shr_state_iter; assumption.
    - replace (Z.max 0 (Zneg p)) with 0 by lia.
      change (2 ^ 0) with 1. rewrite Z.mul_1_r. split; [lia | assumption]. }
  destruct (shr_fexp prec emax (M / D) e l) as [r1 e1].
  destruct H1 as [He1 Hs1].
  set (k1 := Z.max 0 n) in *.
  assert (HP1 : 0 < D * 2 ^ k1).
  { assert (0 < 2 ^ k1) by (apply Z.pow_pos_nonneg; lia). nia. }
  rewrite (shr_state_round M _ r1 HM HP1 Hs1).
  set (m1 := rne_div M (D * 2 ^ k1)).
  assert (Hm1 : 0 <= m1).
  { pose proof (rne_div_bounds M (D * 2 ^ k1)) as H.
    assert (0 <= M / (D * 2 ^ k1)) by (apply Z.div_pos; lia).
    fold m1 in H. lia. }
  pose proof (shr_state_init m1) as Hinit.
  set (n2 := fe (Zdigits2 m1 + e1) - e1).
  assert (H2 : let '(r, e') := shr_fexp prec emax m1 e1 loc_Exact in
               e' = e1 + Z.max 0 n2 /\ shr_m r = m1 / 2 ^ Z.max 0 n2).
  { unfold shr_fexp, shr. fold n2. destruct n2 as [| p | p].
    - cbn [Z.max Z.compare shr_record_of_loc shr_m]. change (2 ^ 0) with 1.
      rewrite Z.div_1_r. split; [lia | reflexivity].
    - replace (Z.max 0 (Zpos p)) with (Zpos p) by lia.
      split; [lia|].
      pose proof (shr_state_iter m1 p Hm1 1 _ ltac:(lia) Hinit) as (Hq & _).
      rewrite Z.mul_1_l in Hq. exact Hq.
    - replace (Z.max 0 (Zneg p)) with 0 by lia.
      cbn [shr_record_of_loc shr_m]. change (2 ^ 0) with 1.
      rewrite Z.div_1_r. split; [lia | reflexivity]. }
  destruct (shr_fexp prec emax m1 e1 loc_Exact) as [r2 e2].
  destruct H2 as [He2 Hq2].
  subst e1 e2. rewrite Hq2. reflexivity.
Qed.

Lemma round_result_le (a b ea eb : Z) :
  0 <= a -> 0 <= b -> ea <= eb ->
  (ea = eb -> a <= b) -> (0 < a -> 0 < b) ->
  SFleb (round_result a ea) (round_result b eb) = true.
Proof.
  intros Ha Hb He Heq Hpos. unfold round_result.
  destruct a as [| p | p], b as [| q | q]; try lia; try reflexivity.
  - destruct (eb <=? emax - prec); reflexivity.
  - destruct (Z.leb_spec ea (emax - prec)), (Z.leb_spec eb (emax - prec));
      try reflexivity; try lia.
    unfold SFleb, SFcompare.
    destruct (Z.compare_spec ea eb) as [E | E | E]; try reflexivity; try lia.
    change (Pos.compare_cont Eq p q) with (Pos.compare p q).
    specialize (Heq E).
    destruct (Pos.compare_spec p q); try reflexivity. lia.
Qed.

(** The second, renormalising shift: nothing happens unless rounding
    carried into a new digit. *)
Lemma renormalise_shift (r E : Z) :
  0 <= r <= 2 ^ prec -> emin <= E ->
  (r < 2 ^ prec -> finish r E = round_result r E) /\
  (r = 2 ^ prec -> finish r E = round_result (2 ^ (prec - 1)) (E + 1)).
Proof.
  intros Hm HE. unfold finish. cbv zeta. split.
  - intros Hlt.
    pose proof (Zdigits2_le_of_lt_pow r prec ltac:(lia) ltac:(lia)).
    replace (Z.max 0 (fe (Zdigits2 r + E) - E)) with 0
      by (unfold fexp, SpecFloat.emin; lia).
    change (2 ^ 0) with 1. rewrite Z.div_1_r, Z.add_0_r. reflexivity.
  - intros Heq.
    assert (Zdigits2 r = prec + 1).
    { apply Z.le_antisymm.
      - apply Zdigits2_le_of_lt_pow; [lia|]. rewrite Heq.
        split; [apply Z.pow_nonneg; lia | apply Z.pow_lt_mono_r; lia].
      - apply Zdigits2_ge_of_pow_le; [|lia].
        replace (prec + 1 - 1) with prec by lia. lia. }
    replace (Z.max 0 (fe (Zdigits2 r + E) - E)) with 1
      by (unfold fexp, SpecFloat.emin; lia).
    rewrite Heq. f_equal.
    replace prec with (prec - 1 + 1) at 1 by lia.
    rewrite Z.pow_add_r by lia. apply Z.div_mul. discriminate.
Qed.

Lemma finish_mono (r1 E1 r2 E2 : Z) :
  0 <= r1 <= 2 ^ prec -> 0 <= r2 <= 2 ^ prec ->
  emin <= E1 -> E1 <= E2 ->
  (E1 = E2 -> r1 <= r2) -> (E1 < E2 -> 2 ^ (prec - 1) <= r2) ->
  SFleb (finish r1 E1) (finish r2 E2) = true.
Proof.
  intros Hr1 Hr2 Hemin HE Hsame Hlo.
  assert (Hhalf : 0 < 2 ^ (prec - 1)) by (apply Z.pow_pos_nonneg; lia).
  destruct (renormalise_shift r1 E1 Hr1 Hemin) as [Hn1 Hc1].
  destruct (renormalise_shift r2 E2 Hr2 ltac:(lia)) as [Hn2 Hc2].
  destruct (Z_lt_le_dec r1 (2 ^ prec)) as [Hl1 | Hg1];
    destruct (Z_lt_le_dec r2 (2 ^ prec)) as [Hl2 | Hg2].
  - rewrite (Hn1 Hl1), (Hn2 Hl2). apply round_result_le; lia.
  - rewrite (Hn1 Hl1), (Hc2 ltac:(lia)). apply round_result_le; lia.
  - rewrite (Hc1 ltac:(lia)), (Hn2 Hl2). apply round_result_le; lia.
  - rewrite (Hc1 ltac:(lia)), (Hc2 ltac:(lia)). apply round_result_le; lia.
Qed.

Lemma finish_valid (r E : Z) :
  0 <= r <= 2 ^ prec -> emin <= E ->
  (emin < E -> 2 ^ (prec - 1) <= r) ->
  valid_binary prec emax (finish r E) = true.
Proof.
  intros Hr Hemin Hlo.
  assert (Hhalf : 0 < 2 ^ (prec - 1)) by (apply Z.pow_pos_nonneg; lia).
  assert (Hcanon : forall q E', 0 < q < 2 ^ prec -> emin <= E' ->
                     (emin < E' -> 2 ^ (prec - 1) <= q) ->
                     valid_binary prec emax (round_result q E') = true).
  { intros q E' Hq' HE' Hlo'. unfold round_result.
    destruct q as [| p | p]; try lia.
    destruct (Z.leb_spec E' (emax - prec)) as [Hle | Hgt]; [| reflexivity].
    unfold valid_binary, bounded, canonical_mantissa.
    apply andb_true_intro. split; [| apply Z.leb_le; assumption].
    apply Z.eqb_eq.
    pose proof (Zdigits2_le_of_lt_pow (Zpos p) prec ltac:(lia) ltac:(lia)) as Hdle.
    cbn [Zdigits2] in Hdle. unfold fexp, SpecFloat.emin.
    destruct (Z.eq_dec E' emin) as [-> | Hne]; [lia|].
    pose proof (Zdigits2_ge_of_pow_le (Zpos p) prec ltac:(lia) prec_pos) as Hdge.
    cbn [Zdigits2] in Hdge. lia. }
  destruct (renormalise_shift r E Hr Hemin) as [Hn Hc].
  destruct (Z_lt_le_dec r (2 ^ prec)) as [Hl | Hg].
  - rewrite (Hn Hl).
    destruct (Z.eq_dec r 0) as [-> | Hr0]; [reflexivity|].
    apply Hcanon; lia.
  - rewrite (Hc ltac:(lia)). apply Hcanon; try lia.
    split; [lia|]. apply Z.pow_lt_mono_r; lia.
Qed.

(** What the first shift leaves: a quotient of at most [prec] digits, of
    exactly [prec] digits above the smallest exponent. *)
Lemma first_shift_bounds (M D e : Z) :
  0 <= M -> 0 < D ->
  e <= fe (Zdigits2 (M / D) + e) ->
  (emin < fe (Zdigits2 (M / D) + e) -> 0 < M / D) ->
  let E := fe (Zdigits2 (M / D) + e) in
  let r := rne_div M (D * 2 ^ (E - e)) in
  emin <= E /\ 0 <= r <= 2 ^ prec /\ (emin < E -> 2 ^ (prec - 1) <= r) /\
  round_div M D e = finish r E.
Proof.
  intros HM HD Hk Hq0 E r.
  assert (HE : emin <= E) by (unfold E, fexp, SpecFloat.emin; lia).
  set (k := E - e) in *.
  assert (Hk' : 0 <= k) by (unfold k, E; lia).
  assert (HP : 0 < 2 ^ k) by (apply Z.pow_pos_nonneg; lia).
  assert (Hdd : M / (D * 2 ^ k) = M / D / 2 ^ k) by (rewrite Z.div_div; lia).
  pose proof (rne_div_bounds M (D * 2 ^ k)) as Hr. fold r in Hr. rewrite Hdd in Hr.
  set (q := M / D) in *.
  assert (Hq : 0 <= q) by (apply Z.div_pos; lia).
  assert (Hlt : q / 2 ^ k < 2 ^ prec).
  { apply Z.div_lt_upper_bound; [lia|].
    rewrite <- Z.pow_add_r by lia.
    destruct (Z.eq_dec q 0) as [-> | Hne]; [apply Z.pow_pos_nonneg; lia|].
    destruct (Zdigits2_pos_bounds q ltac:(lia)) as [Hd [_ Hhi]].
    apply Z.lt_le_trans with (1 := Hhi).
    apply Z.pow_le_mono_r; [lia|]. unfold k, E, fexp. lia. }
  assert (Hge : 0 <= q / 2 ^ k) by (apply Z.div_pos; lia).
  split; [assumption|]. split; [lia|]. split.
  - intros Hgt. specialize (Hq0 Hgt).
    destruct (Zdigits2_pos_bounds q Hq0) as [Hd [Hlo _]].
    apply Z.le_trans with (q / 2 ^ k); [| lia].
    apply Z.div_le_lower_bound; [lia|].
    rewrite <- Z.pow_add_r by lia.
    apply Z.le_trans with (2 := Hlo).
    apply Z.pow_le_mono_r; [lia|]. unfold k. unfold E, fexp, SpecFloat.emin in *. lia.
  - unfold round_div. cbv zeta. fold q. fold E.
    replace (Z.max 0 (E - e)) with k by (unfold k; lia).
    replace (e + k) with E by (unfold k; lia). reflexivity.
Qed.

Lemma round_div_valid (M D e : Z) :
  0 <= M -> 0 < D ->
  e <= fe (Zdigits2 (M / D) + e) ->
  (emin < fe (Zdigits2 (M / D) + e) -> 0 < M / D) ->
  valid_binary prec emax (round_div M D e) = true.
Proof.
  intros HM HD Hk Hq0.
  destruct (first_shift_bounds M D e HM HD Hk Hq0) as (HE & Hr & Hlo & ->).
  apply finish_valid; assumption.
Qed.

Lemma round_div_mono (M1 e1 M2 e2 D : Z) :
  0 <= M1 -> 0 < D -> e1 <= e2 -> M1 <= M2 * 2 ^ (e2 - e1) ->
  e1 <= fe (Zdigits2 (M1 / D) + e1) ->
  e2 <= fe (Zdigits2 (M2 / D) + e2) ->
  (emin < fe (Zdigits2 (M1 / D) + e1) -> 0 < M1 / D) ->
  (emin < fe (Zdigits2 (M2 / D) + e2) -> 0 < M2 / D) ->
  SFleb (round_div M1 D e1) (round_div M2 D e2) = true.
Proof.
  intros HM1 HD He Hle Hk1 Hk2 Hq1 Hq2.
  set (t := e2 - e1) in *.
  assert (HT : 0 < 2 ^ t) by (apply Z.pow_pos_nonneg; lia).
  assert (HM2 : 0 <= M2) by nia.
  destruct (first_shift_bounds M1 D e1 HM1 HD Hk1 Hq1) as (HE1 & Hr1 & Hlo1 & ->).
  destruct (first_shift_bounds M2 D e2 HM2 HD Hk2 Hq2) as (HE2 & Hr2 & Hlo2 & ->).
  set (q1 := M1 / D) in *. set (q2 := M2 / D) in *.
  set (E1 := fe (Zdigits2 q1 + e1)) in *. set (E2 := fe (Zdigits2 q2 + e2)) in *.
  assert (Hq1' : 0 <= q1) by (apply Z.div_pos; lia).
  assert (Hq2' : 0 <= q2) by (apply Z.div_pos; lia).
  assert (HE : E1 <= E2).
  { destruct (Z.eq_dec q1 0) as [Hz | Hnz]; [lia|].
    destruct (Zdigits2_pos_bounds q1 ltac:(lia)) as [Hd1 [Hlow1 _]].
    apply fexp_mono.
    assert (Hq2up : q2 + 1 <= 2 ^ Zdigits2 q2).
    { destruct (Z.eq_dec q2 0) as [-> | Hnz2]; [cbn; lia|].
      destruct (Zdigits2_pos_bounds q2 ltac:(lia)) as [_ [_ Hh]]. lia. }
    assert (Hd2 : 0 <= Zdigits2 q2).
    { destruct (Z.eq_dec q2 0) as [-> | Hnz2]; [cbn; lia|].
      destruct (Zdigits2_pos_bounds q2 ltac:(lia)) as [Hh _]. lia. }
    pose proof (Z.mul_div_le M1 D HD) as Hm1. fold q1 in Hm1.
    pose proof (Z.mul_succ_div_gt M2 D HD) as Hm2. fold q2 in Hm2.
    assert (Hlt : 2 ^ (Zdigits2 q1 - 1) < 2 ^ (Zdigits2 q2 + t)).
    { rewrite (Z.pow_add_r 2 _ t) by lia.
      assert (H1 : 2 ^ (Zdigits2 q1 - 1) * D <= M1).
      { apply Z.le_trans with (2 := Hm1). rewrite (Z.mul_comm D q1).
        apply Z.mul_le_mono_nonneg_r; lia. }
      assert (H2 : M2 < 2 ^ Zdigits2 q2 * D).
      { apply Z.lt_le_trans with (1 := Hm2). unfold Z.succ.
        rewrite (Z.mul_comm D). apply Z.mul_le_mono_nonneg_r; lia. }
      assert (H3 : M2 * 2 ^ t < 2 ^ Zdigits2 q2 * D * 2 ^ t)
        by (apply Z.mul_lt_mono_pos_r; assumption).
      apply (Z.mul_lt_mono_pos_r D); [assumption|].
      apply Z.le_lt_trans with (1 := H1).
      apply Z.le_lt_trans with (1 := Hle).
      replace (2 ^ Zdigits2 q2 * 2 ^ t * D) with (2 ^ Zdigits2 q2 * D * 2 ^ t) by ring.
      exact H3. }
    apply Z.pow_lt_mono_r_iff in Hlt; lia. }
  apply finish_mono; try assumption.
  - intros HEE.
    assert (Hkk : E1 - e1 = (E2 - e2) + t) by (unfold t; lia).
    rewrite Hkk, Z.pow_add_r by lia.
    assert (HP2 : 0 < 2 ^ (E2 - e2)) by (apply Z.pow_pos_nonneg; lia).
    rewrite Z.mul_assoc.
    rewrite <- (rne_div_scale M2 (D * 2 ^ (E2 - e2)) (2 ^ t)) by nia.
    apply rne_div_mono; [nia | lia].
  - intros HEE. apply Hlo2. lia.
Qed.

Lemma bounded_inv (m : positive) (e : Z) :
  bounded prec emax m e = true ->
  fe (Zdigits2 (Zpos m) + e) = e /\ e <= emax - prec.
Proof.
  unfold bounded, canonical_mantissa. intros H.
  apply andb_prop in H. destruct H as [Hc Hm].
  apply Z.eqb_eq in Hc. apply Z.leb_le in Hm. split; assumption.
Qed.

(** Two ordered floats: the exponents are ordered, the magnitudes are
    ordered, and so are the values. *)
Lemma finite_leb_inv (mx my : positive) (ex ey : Z) :
  bounded prec emax mx ex = true -> bounded prec emax my ey = true ->
  SFleb (S754_finite false mx ex) (S754_finite false my ey) = true ->
  ex <= ey /\
  Zdigits2 (Zpos mx) + ex <= Zdigits2 (Zpos my) + ey /\
  Zpos mx <= Zpos my * 2 ^ (ey - ex).
Proof.
  intros Hx Hy. unfold SFleb, SFcompare.
  change (Pos.compare_cont Eq mx my) with (Pos.compare mx my).
  destruct (bounded_inv _ _ Hx) as [Hcx _].
  destruct (bounded_inv _ _ Hy) as [Hcy _].
  destruct (Zdigits2_pos_bounds (Zpos mx) ltac:(lia)) as [Hdx [Hlox Hhix]].
  destruct (Zdigits2_pos_bounds (Zpos my) ltac:(lia)) as [Hdy [Hloy Hhiy]].
  set (dx := Zdigits2 (Zpos mx)) in *. set (dy := Zdigits2 (Zpos my)) in *.
  destruct (Z.compare_spec ex ey) as [E | E | E]; try discriminate.
  - subst ey. rewrite Z.sub_diag. change (2 ^ 0) with 1.
    destruct (Pos.compare_spec mx my); try discriminate; intros _.
    + subst my. split; [lia|]. split; lia.
    + split; [lia|]. split; [|lia].
      assert (dx <= dy); [|lia].
      apply Zdigits2_le_of_lt_pow; lia.
  - intros _. split; [lia|].
    assert (Hdxp : dx <= prec) by (unfold fexp in Hcx; lia).
    assert (Hdyp : dy = prec) by (unfold fexp, SpecFloat.emin in *; lia).
    split; [lia|].
    assert (H1 : 2 ^ dx <= 2 ^ prec) by (apply Z.pow_le_mono_r; lia).
    assert (H2 : 2 ^ 1 <= 2 ^ (ey - ex)) by (apply Z.pow_le_mono_r; lia).
    change (2 ^ 1) with 2 in H2.
    assert (H3 : 2 ^ prec = 2 * 2 ^ (prec - 1)).
    { replace prec with (prec - 1 + 1) at 1 by lia.
      rewrite Z.pow_add_r by lia. change (2 ^ 1) with 2. ring. }
    rewrite Hdyp in Hloy. nia.
Qed.

Hypothesis emin_nonpos : emin <= 0.

(** The exact product of two floats has enough digits for one rounding. *)
Lemma product_precise (mx mf : positive) (ex ef : Z) :
  bounded prec emax mx ex = true -> bounded prec emax mf ef = true ->
  ex + ef <= fe (Zdigits2 (Zpos (mx * mf)) + (ex + ef)).
Proof.
  intros Hx Hf.
  destruct (bounded_inv _ _ Hx) as [Hcx _].
  destruct (bounded_inv _ _ Hf) as [Hcf _].
  destruct (Zdigits2_pos_bounds (Zpos mx) ltac:(lia)) as [Hdx [Hlox _]].
  destruct (Zdigits2_pos_bounds (Zpos mf) ltac:(lia)) as [Hdf [Hlof _]].
  set (dx := Zdigits2 (Zpos mx)) in *. set (df := Zdigits2 (Zpos mf)) in *.
  assert (Hd : dx + df - 1 <= Zdigits2 (Zpos (mx * mf))).
  { apply Zdigits2_ge_of_pow_le; [|lia].
    replace (dx + df - 1 - 1) with ((dx - 1) + (df - 1)) by lia.
    rewrite Z.pow_add_r, Pos2Z.inj_mul by lia.
    assert (0 < 2 ^ (dx - 1)) by (apply Z.pow_pos_nonneg; lia).
    assert (0 < 2 ^ (df - 1)) by (apply Z.pow_pos_nonneg; lia).
    nia. }
  unfold fexp, SpecFloat.emin in *. lia.
Qed.

Lemma SFmul_spec (mx mf : positive) (ex ef : Z) :
  SFmul prec emax (S754_finite false mx ex) (S754_finite false mf ef)
  = round_div (Zpos (mx * mf)) 1 (ex + ef).
Proof.
  cbn [SFmul xorb].
  rewrite <- (Z.div_1_r (Zpos (mx * mf))) at 1.
  apply binary_round_aux_spec; [lia | lia |].
  rewrite Z.div_1_r. apply shr_state_init.
Qed.

Lemma SFmul_precise (mx mf : positive) (ex ef : Z) :
  bounded prec emax mx ex = true -> bounded prec emax mf ef = true ->
  ex + ef <= fe (Zdigits2 (Zpos (mx * mf) / 1) + (ex + ef)) /\
  (emin < fe (Zdigits2 (Zpos (mx * mf) / 1) + (ex + ef)) ->
   0 < Zpos (mx * mf) / 1).
Proof.
  intros Hx Hf. rewrite Z.div_1_r.
  split; [apply product_precise; assumption | lia].
Qed.

Lemma SFmul_valid (mx mf : positive) (ex ef : Z) :
  bounded prec emax mx ex = true -> bounded prec emax mf ef = true ->
  valid_binary prec emax
    (SFmul prec emax (S754_finite false mx ex) (S754_finite false mf ef)) = true.
Proof.
  intros Hx Hf. rewrite SFmul_spec.
  destruct (SFmul_precise mx mf ex ef Hx Hf) as [H1 H2].
  apply round_div_valid; try lia; assumption.
Qed.

Lemma SFmul_mono_finite (mx my mf : positive) (ex ey ef : Z) :
  bounded prec emax mx ex = true -> bounded prec emax my ey = true ->
  bounded prec emax mf ef = true ->
  SFleb (S754_finite false mx ex) (S754_finite false my ey) = true ->
  SFleb (SFmul prec emax (S754_finite false mx ex) (S754_finite false mf ef))
        (SFmul prec emax (S754_finite false my ey) (S754_finite false mf ef)) = true.
Proof.
  intros Hx Hy Hf Hle.
  destruct (finite_leb_inv _ _ _ _ Hx Hy Hle) as (He & _ & Hm).
  rewrite !SFmul_spec.
  destruct (SFmul_precise mx mf ex ef Hx Hf) as [H1 H2].
  destruct (SFmul_precise my mf ey ef Hy Hf) as [H3 H4].
  apply round_div_mono; try assumption; try lia.
  replace (ey + ef - (ex + ef)) with (ey - ex) by lia.
  rewrite !Pos2Z.inj_mul.
  assert (0 < 2 ^ (ey - ex)) by (apply Z.pow_pos_nonneg; lia). nia.
Qed.

Lemma new_location_state (M D : Z) :
  0 <= M -> 0 < D ->
  shr_state M D (shr_record_of_loc (M / D) (new_location D (M mod D))).
Proof.
  intros HM HD. unfold shr_state.
  pose proof (Z.mod_pos_bound M D HD) as HR.
  set (R := M mod D) in *. set (q := M / D).
  unfold new_location, new_location_even, new_location_odd.
  assert (Hsmall : 2 * R < D -> 2 * R mod D = 2 * R)
    by (intros; apply Z.mod_small; lia).
  assert (Hlarge : D <= 2 * R -> 2 * R mod D = 2 * R - D).
  { intros. symmetry. apply (Z.mod_unique_pos _ D 1 (2 * R - D)); lia. }
  destruct (Z.even D) eqn:Hev; destruct (Z.eqb_spec R 0) as [HR0 | HR0].
  - rewrite HR0. cbn [shr_record_of_loc shr_m shr_r shr_s].
    rewrite Z.mod_0_l by lia.
    replace (D <=? 2 * 0) with false by (symmetry; apply Z.leb_gt; lia).
    repeat split.
  - destruct (Z.compare_spec (2 * R) D) as [E | E | E];
      cbn [shr_record_of_loc shr_m shr_r shr_s].
    + rewrite (Hlarge ltac:(lia)).
      replace (D <=? 2 * R) with true by (symmetry; apply Z.leb_le; lia).
      replace (2 * R - D =? 0) with true by (symmetry; apply Z.eqb_eq; lia).
      repeat split.
    + rewrite (Hsmall E).
      replace (D <=? 2 * R) with false by (symmetry; apply Z.leb_gt; lia).
      replace (2 * R =? 0) with false by (symmetry; apply Z.eqb_neq; lia).
      repeat split.
    + rewrite (Hlarge ltac:(lia)).
      replace (D <=? 2 * R) with true by (symmetry; apply Z.leb_le; lia).
      replace (2 * R - D =? 0) with false by (symmetry; apply Z.eqb_neq; lia).
      repeat split.
  - rewrite HR0. cbn [shr_record_of_loc shr_m shr_r shr_s].
    rewrite Z.mod_0_l by lia.
    replace (D <=? 2 * 0) with false by (symmetry; apply Z.leb_gt; lia).
    repeat split.
  - assert (Hodd : 2 * R <> D).
    { intros Heq. rewrite <- Heq, Z.even_mul in Hev. discriminate. }
    destruct (Z.compare_spec (2 * R + 1) D) as [E | E | E];
      cbn [shr_record_of_loc shr_m shr_r shr_s].
    + rewrite (Hsmall ltac:(lia)).
      replace (D <=? 2 * R) with false by (symmetry; apply Z.leb_gt; lia).
      replace (2 * R =? 0) with false by (symmetry; apply Z.eqb_neq; lia).
      repeat split.
    + rewrite (Hsmall ltac:(lia)).
      replace (D <=? 2 * R) with false by (symmetry; apply Z.leb_gt; lia).
      replace (2 * R =? 0) with false by (symmetry; apply Z.eqb_neq; lia).
      repeat split.
    + rewrite (Hlarge ltac:(lia)).
      replace (D <=? 2 * R) with true by (symmetry; apply Z.leb_le; lia).
      replace (2 * R - D =? 0) with false by (symmetry; apply Z.eqb_neq; lia).
      repeat split.
Qed.

Lemma SFdiv_spec (mx mf : positive) (ex ef : Z) :
  SFdiv prec emax (S754_finite false mx ex) (S754_finite false mf ef)
  = round_div (div_numerator mx mf ex ef) (Zpos mf) (div_exponent mx mf ex ef).
Proof.
  cbn [SFdiv xorb]. unfold SFdiv_core_binary.
  fold (div_exponent mx mf ex ef).
  unfold div_numerator.
  set (e' := div_exponent mx mf ex ef).
  assert (Hs : 0 <= ex - ef - e') by (unfold e', div_exponent; lia).
  set (s := ex - ef - e') in *.
  assert (HM : match s with
               | Zpos _ => Z.shiftl (Zpos mx) s
               | Z0 => Zpos mx
               | Zneg _ => 0
               end = Zpos mx * 2 ^ s).
  { clearbody s. destruct s as [| p | p]; [ring | | lia].
    apply Z.shiftl_mul_pow2. lia. }
  rewrite HM.
  set (M := Zpos mx * 2 ^ s).
  assert (HM0 : 0 <= M).
  { unfold M. assert (0 < 2 ^ s) by (apply Z.pow_pos_nonneg; lia). nia. }
  assert (Hqr : Z.div_eucl M (Zpos mf) = (M / Zpos mf, M mod Zpos mf)).
  { unfold Z.div, Z.modulo. destruct (Z.div_eucl M (Zpos mf)); reflexivity. }
  rewrite Hqr.
  apply binary_round_aux_spec; [assumption | lia |].
  apply new_location_state; lia.
Qed.

Lemma SFdiv_precise (mx mf : positive) (ex ef : Z) :
  let M := div_numerator mx mf ex ef in
  let e' := div_exponent mx mf ex ef in
  0 <= M /\
  e' <= fe (Zdigits2 (M / Zpos mf) + e') /\
  (emin < fe (Zdigits2 (M / Zpos mf) + e') -> 0 < M / Zpos mf).
Proof.
  intros M e'.
  destruct (Zdigits2_pos_bounds (Zpos mx) ltac:(lia)) as [Hdx [Hlox _]].
  destruct (Zdigits2_pos_bounds (Zpos mf) ltac:(lia)) as [Hdf [_ Hhif]].
  assert (He' : e' = Z.min (fe (Zdigits2 (Zpos mx) + ex - (Zdigits2 (Zpos mf) + ef))) (ex - ef))
    by reflexivity.
  set (dx := Zdigits2 (Zpos mx)) in *. set (df := Zdigits2 (Zpos mf)) in *.
  set (z := dx + ex - (df + ef)) in *.
  assert (Hs : 0 <= ex - ef - e') by lia.
  assert (HMdef : M = Zpos mx * 2 ^ (ex - ef - e')) by reflexivity.
  set (s := ex - ef - e') in *.
  assert (HS : 0 < 2 ^ s) by (apply Z.pow_pos_nonneg; lia).
  assert (HM0 : 0 <= M) by nia.
  split; [assumption|].
  assert (Hq0 : 0 <= M / Zpos mf) by (apply Z.div_pos; lia).
  destruct (Z_le_gt_dec df (dx - 1 + s)) as [Hbig | Hsmall].
  - (* the quotient has at least dx + s - df digits *)
    assert (Hq : 2 ^ (dx - 1 + s - df) <= M / Zpos mf).
    { apply Z.div_le_lower_bound; [lia|].
      apply Z.le_trans with (2 ^ df * 2 ^ (dx - 1 + s - df)).
      - apply Z.mul_le_mono_nonneg_r; [apply Z.pow_nonneg; lia | lia].
      - rewrite <- Z.pow_add_r by lia.
        replace (df + (dx - 1 + s - df)) with ((dx - 1) + s) by lia.
        rewrite Z.pow_add_r by lia. rewrite HMdef.
        apply Z.mul_le_mono_nonneg_r; lia. }
    assert (Hpos : 0 < 2 ^ (dx - 1 + s - df)) by (apply Z.pow_pos_nonneg; lia).
    assert (Hd : dx + s - df <= Zdigits2 (M / Zpos mf)).
    { apply Zdigits2_ge_of_pow_le; [|lia].
      replace (dx + s - df - 1) with (dx - 1 + s - df) by lia. assumption. }
    split; [| lia].
    assert (Hz : fe z <= fe (Zdigits2 (M / Zpos mf) + e'))
      by (apply fexp_mono; unfold s in *; lia).
    lia.
  - assert (Hd0 : 0 <= Zdigits2 (M / Zpos mf)).
    { destruct (Z.eq_dec (M / Zpos mf) 0) as [-> | Hne]; [cbn; lia|].
      destruct (Zdigits2_pos_bounds (M / Zpos mf) ltac:(lia)); lia. }
    assert (Hemin : e' <= emin) by (unfold fexp, SpecFloat.emin, s in *; lia).
    split; [unfold fexp, SpecFloat.emin; lia|].
    intros Hgt.
    destruct (Z.eq_dec (M / Zpos mf) 0) as [Hz | Hne]; [| lia].
    rewrite Hz in Hgt. cbn [Zdigits2] in Hgt.
    unfold fexp, SpecFloat.emin in Hgt. lia.
Qed.

Lemma SFdiv_valid (mx mf : positive) (ex ef : Z) :
  valid_binary prec emax
    (SFdiv prec emax (S754_finite false mx ex) (S754_finite false mf ef)) = true.
Proof.
  rewrite SFdiv_spec.
  destruct (SFdiv_precise mx mf ex ef) as (H0 & H1 & H2).
  apply round_div_valid; try assumption; lia.
Qed.

Lemma SFdiv_mono_finite (mx my mf : positive) (ex ey ef : Z) :
  bounded prec emax mx ex = true -> bounded prec emax my ey = true ->
  SFleb (S754_finite false mx ex) (S754_finite false my ey) = true ->
  SFleb (SFdiv prec emax (S754_finite false mx ex) (S754_finite false mf ef))
        (SFdiv prec emax (S754_finite false my ey) (S754_finite false mf ef)) = true.
Proof.
  intros Hx Hy Hle.
  destruct (finite_leb_inv _ _ _ _ Hx Hy Hle) as (He & Hmag & Hm).
  rewrite !SFdiv_spec.
  destruct (SFdiv_precise mx mf ex ef) as (H0 & H1 & H2).
  destruct (SFdiv_precise my mf ey ef) as (H3 & H4 & H5).
  assert (Hee : div_exponent mx mf ex ef <= div_exponent my mf ey ef).
  { unfold div_exponent.
    pose proof (fexp_mono prec emax
                  (Zdigits2 (Zpos mx) + ex - (Zdigits2 (Zpos mf) + ef))
                  (Zdigits2 (Zpos my) + ey - (Zdigits2 (Zpos mf) + ef))
                  ltac:(lia)).
    lia. }
  apply round_div_mono; try assumption; try lia.
  unfold div_numerator.
  set (e1 := div_exponent mx mf ex ef) in *.
  set (e2 := div_exponent my mf ey ef) in *.
  assert (Hs1 : 0 <= ex - ef - e1) by (unfold e1, div_exponent; lia).
  assert (Hs2 : 0 <= ey - ef - e2) by (unfold e2, div_exponent; lia).
  rewrite <- Z.mul_assoc, <- Z.pow_add_r by lia.
  replace (ey - ef - e2 + (e2 - e1)) with ((ey - ex) + (ex - ef - e1)) by lia.
  rewrite Z.pow_add_r, Z.mul_assoc by lia.
  apply Z.mul_le_mono_nonneg_r; [apply Z.pow_nonneg; lia | assumption].
Qed.
End RoundingToNearest.

Section ExactRounding.

Import rounding.

Variables prec emax : Z.
Hypothesis prec_pos : 1 <= prec.

(** Rounding a number that is a float gives that float. *)
Lemma round_div_exact (mx : positive) (ex k : Z) :
  bounded prec emax mx ex = true -> 0 <= k ->
  round_div prec emax (Zpos mx * 2 ^ k) 1 (ex - k) = S754_finite false mx ex.
Proof.
  intros Hb Hk.
  destruct (bounded_inv prec emax _ _ Hb) as [Hc He].
  destruct (Zdigits2_pos_bounds (Zpos mx) ltac:(lia)) as [Hd [Hlo Hhi]].
  set (d := Zdigits2 (Zpos mx)) in *.
  assert (HT : 0 < 2 ^ k) by (apply Z.pow_pos_nonneg; lia).
  assert (Hdk : Zdigits2 (Zpos mx * 2 ^ k) = d + k).
  { apply Z.le_antisymm.
    - apply Zdigits2_le_of_lt_pow; [lia|].
      rewrite Z.pow_add_r by lia. split; [lia|].
      apply Z.mul_lt_mono_pos_r; assumption.
    - apply Zdigits2_ge_of_pow_le; [|lia].
      replace (d + k - 1) with (d - 1 + k) by lia.
      rewrite Z.pow_add_r by lia.
      apply Z.mul_le_mono_nonneg_r; lia. }
  unfold round_div. cbv zeta.
  rewrite Z.div_1_r, Hdk.
  replace (d + k + (ex - k)) with (d + ex) by lia.
  rewrite Hc.
  replace (Z.max 0 (ex - (ex - k))) with k by lia.
  replace (ex - k + k) with ex by lia.
  rewrite (rne_div_scale (Zpos mx) 1 (2 ^ k)) by lia.
  assert (Hr : rne_div (Zpos mx) 1 = Zpos mx).
  { unfold rne_div. rewrite Z.div_1_r, Z.mod_1_r. reflexivity. }
  rewrite Hr.
  assert (Hdp : d <= prec) by (unfold fexp in Hc; lia).
  assert (Hlt : Zpos mx < 2 ^ prec).
  { apply Z.lt_le_trans with (1 := Hhi). apply Z.pow_le_mono_r; lia. }
  destruct (renormalise_shift prec emax prec_pos (Zpos mx) ex ltac:(lia)
              ltac:(unfold fexp, SpecFloat.emin in Hc; lia)) as [Hn _].
  rewrite (Hn Hlt). unfold round_result.
  replace (ex <=? emax - prec) with true by (symmetry; apply Z.leb_le; lia).
  reflexivity.
Qed.

End ExactRounding.

(** ** The float operations on [float]: validity, order, unit *)

Section Float32Facts.

Import rounding.

Lemma prec_ge_1 : 1 <= prec.
Proof. unfold prec. lia. Qed.

Lemma emin_le_0 : 3 - emax - prec <= 0.
Proof. unfold prec, emax. lia. Qed.

Lemma positive_finite_inv (x : float32) :
  positive_finite x = true ->
  exists (m : positive) (e : Z),
    x = S754_finite false m e /\ bounded prec emax m e = true.
Proof.
  destruct x as [s | s | | [] m e]; cbn; try discriminate.
  intros H. exists m, e. split; [reflexivity | assumption].
Qed.

Lemma positive_finite_valid (x : float32) :
  positive_finite x = true -> valid x = true /\ nonneg_float x = true.
Proof.
  destruct x as [s | s | | [] m e]; cbn; try discriminate.
  intros H. split; [assumption | reflexivity].
Qed.

Lemma zero_leb_nonneg (s : bool) (x : float32) :
  nonneg_float x = true -> leb (S754_zero s) x = true.
Proof. destruct x as [sx | [] | | [] m e]; cbn; congruence. Qed.

Lemma nonneg_leb_infinity (x : float32) :
  nonneg_float x = true -> leb x (S754_infinity false) = true.
Proof. destruct x as [sx | [] | | [] m e]; cbn; congruence. Qed.

Lemma leb_nonneg_r (x y : float32) :
  nonneg_float x = true -> leb x y = true -> nonneg_float y = true.
Proof.
  destruct x as [sx | [] | | [] mx ex], y as [sy | [] | | [] my ey];
    cbn; congruence.
Qed.

Lemma mul_valid (x f : float32) :
  valid x = true -> nonneg_float x = true -> positive_finite f = true ->
  valid (mul x f) = true /\ nonneg_float (mul x f) = true.
Proof.
  intros Hv Hn Hf.
  destruct (positive_finite_inv f Hf) as (mf & ef & -> & Hbf).
  split; [| apply mul_finite_nonneg; assumption].
  destruct x as [s | [] | | [] mx ex]; try discriminate Hn; try reflexivity.
  apply (SFmul_valid prec emax prec_ge_1 emin_le_0); assumption.
Qed.

Lemma div_valid (x f : float32) :
  valid x = true -> nonneg_float x = true -> positive_finite f = true ->
  valid (div x f) = true /\ nonneg_float (div x f) = true.
Proof.
  intros Hv Hn Hf.
  destruct (positive_finite_inv f Hf) as (mf & ef & -> & Hbf).
  split; [| apply div_finite_nonneg; assumption].
  destruct x as [s | [] | | [] mx ex]; try discriminate Hn; try reflexivity.
  apply (SFdiv_valid prec emax prec_ge_1).
Qed.

(** Multiplying by a fixed positive factor keeps the order. *)
Lemma mul_mono (x y f : float32) :
  valid x = true -> valid y = true -> nonneg_float x = true ->
  positive_finite f = true -> leb x y = true ->
  leb (mul x f) (mul y f) = true.
Proof.
  intros Hvx Hvy Hnx Hf Hle.
  pose proof (leb_nonneg_r x y Hnx Hle) as Hny.
  destruct (positive_finite_inv f Hf) as (mf & ef & -> & Hbf).
  pose proof (mul_finite_nonneg y mf ef Hny) as Hry.
  pose proof (mul_finite_nonneg x mf ef Hnx) as Hrx.
  destruct x as [sx | [] | | [] mx ex]; try discriminate Hnx.
  - apply zero_leb_nonneg. assumption.
  - destruct y as [sy | [] | | [] my ey]; try discriminate Hle. reflexivity.
  - destruct y as [sy | [] | | [] my ey]; try discriminate Hle.
    + apply nonneg_leb_infinity. assumption.
    + apply (SFmul_mono_finite prec emax prec_ge_1 emin_le_0); assumption.
Qed.

(** Dividing by a fixed positive divisor keeps the order. *)
Lemma div_mono (x y f : float32) :
  valid x = true -> valid y = true -> nonneg_float x = true ->
  positive_finite f = true -> leb x y = true ->
  leb (div x f) (div y f) = true.
Proof.
  intros Hvx Hvy Hnx Hf Hle.
  pose proof (leb_nonneg_r x y Hnx Hle) as Hny.
  destruct (positive_finite_inv f Hf) as (mf & ef & -> & Hbf).
  pose proof (div_finite_nonneg y mf ef Hny) as Hry.
  pose proof (div_finite_nonneg x mf ef Hnx) as Hrx.
  destruct x as [sx | [] | | [] mx ex]; try discriminate Hnx.
  - apply zero_leb_nonneg. assumption.
  - destruct y as [sy | [] | | [] my ey]; try discriminate Hle. reflexivity.
  - destruct y as [sy | [] | | [] my ey]; try discriminate Hle.
    + apply nonneg_leb_infinity. assumption.
    + apply (SFdiv_mono_finite prec emax prec_ge_1); assumption.
Qed.

(** [1.0f] is a unit of the multiplication. *)
Lemma mul_one_l (x : float32) :
  valid x = true -> nonneg_float x = true -> mul lit_1_0 x = x.
Proof.
  intros Hv Hn.
  destruct x as [s | [] | | [] mx ex]; try discriminate Hn; try reflexivity.
  unfold mul, lit_1_0.
  rewrite (SFmul_spec prec emax prec_ge_1 8388608 mx (-23) ex).
  replace (Zpos (8388608 * mx)) with (Zpos mx * 2 ^ 23) by (change (2 ^ 23) with 8388608; lia).
  replace (-23 + ex) with (ex - 23) by lia.
  apply (round_div_exact prec emax prec_ge_1); [assumption | lia].
Qed.

Lemma SFcompare_some (x y : spec_float) :
  x <> S754_nan -> y <> S754_nan -> exists c, SFcompare x y = Some c.
Proof.
  intros Hx Hy.
  destruct x as [sx | sx | | sx mx ex], y as [sy | sy | | sy my ey];
    try congruence; cbn; eexists; reflexivity.
Qed.

Lemma SFltb_leb (x y : spec_float) : SFltb x y = true -> SFleb x y = true.
Proof.
  unfold SFltb, SFleb. destruct (SFcompare x y) as [[] |]; congruence.
Qed.

Lemma SFltb_false_leb (x y : spec_float) :
  x <> S754_nan -> y <> S754_nan -> SFltb x y = false -> SFleb y x = true.
Proof.
  intros Hx Hy. unfold SFltb, SFleb. rewrite (SFcompare_swap x y).
  destruct (SFcompare_some x y Hx Hy) as [c ->].
  destruct c; cbn; congruence.
Qed.

Ltac compare_cases :=
  repeat match goal with
  | H : context [Z.compare ?a ?b] |- _ => destruct (Z.compare_spec a b)
  | |- context [Z.compare ?a ?b] => destruct (Z.compare_spec a b)
  | H : context [Pos.compare ?a ?b] |- _ => destruct (Pos.compare_spec a b)
  | |- context [Pos.compare ?a ?b] => destruct (Pos.compare_spec a b)
  end.

Lemma SFltb_leb_trans (z x y : spec_float) :
  SFltb z x = true -> SFleb x y = true -> SFltb z y = true.
Proof.
  unfold SFltb, SFleb.
  destruct x as [sx | sx | | sx mx ex], y as [sy | sy | | sy my ey],
           z as [sz | sz | | sz mz ez];
    cbn; try congruence;
    try (destruct sx; cbn; congruence);
    try (destruct sy; cbn; congruence);
    try (destruct sz; cbn; congruence);
    try (destruct sx, sy; cbn; congruence);
    try (destruct sx, sz; cbn; congruence);
    try (destruct sy, sz; cbn; congruence);
    try (destruct sx, sy, sz; cbn; congruence).
  change (Pos.compare_cont Eq mz mx) with (Pos.compare mz mx).
  change (Pos.compare_cont Eq mx my) with (Pos.compare mx my).
  change (Pos.compare_cont Eq mz my) with (Pos.compare mz my).
  destruct sx, sy, sz; try congruence;
    compare_cases; cbn; try congruence; try lia.
Qed.

Lemma SFleb_ltb_trans (x y z : spec_float) :
  SFleb x y = true -> SFltb y z = true -> SFltb x z = true.
Proof.
  unfold SFltb, SFleb.
  destruct x as [sx | sx | | sx mx ex], y as [sy | sy | | sy my ey],
           z as [sz | sz | | sz mz ez];
    cbn; try congruence;
    try (destruct sx; cbn; congruence);
    try (destruct sy; cbn; congruence);
    try (destruct sz; cbn; congruence);
    try (destruct sx, sy; cbn; congruence);
    try (destruct sx, sz; cbn; congruence);
    try (destruct sy, sz; cbn; congruence);
    try (destruct sx, sy, sz; cbn; congruence).
  change (Pos.compare_cont Eq mx my) with (Pos.compare mx my).
  change (Pos.compare_cont Eq my mz) with (Pos.compare my mz).
  change (Pos.compare_cont Eq mx mz) with (Pos.compare mx mz).
  destruct sx, sy, sz; try congruence;
    compare_cases; cbn; try congruence; try lia.
Qed.

(** A factor of at most one shrinks, a factor of at least one grows. *)
Lemma mul_factor_le_one (x f : float32) :
  valid x = true -> nonneg_float x = true -> positive_finite f = true ->
  leb f lit_1_0 = true -> leb (mul x f) x = true.
Proof.
  intros Hv Hn Hf Hle.
  destruct (positive_finite_valid f Hf) as [Hvf Hnf].
  destruct (positive_finite_inv f Hf) as (mf & ef & Hfe & Hbf).
  destruct x as [s | [] | | [] mx ex]; try discriminate Hn.
  - subst f. reflexivity.
  - subst f. reflexivity.
  - set (x := S754_finite false mx ex) in *.
    assert (Hpx : positive_finite x = true) by exact Hv.
    unfold mul. rewrite (SFmul_comm prec emax x f). fold (mul f x).
    rewrite <- (mul_one_l x Hv Hn) at 2.
    apply mul_mono; solve [assumption | reflexivity].
Qed.

Lemma mul_factor_ge_one (x f : float32) :
  valid x = true -> nonneg_float x = true -> positive_finite f = true ->
  leb lit_1_0 f = true -> leb x (mul x f) = true.
Proof.
  intros Hv Hn Hf Hle.
  destruct (positive_finite_valid f Hf) as [Hvf Hnf].
  destruct (positive_finite_inv f Hf) as (mf & ef & Hfe & Hbf).
  destruct x as [s | [] | | [] mx ex]; try discriminate Hn.
  - subst f. reflexivity.
  - subst f. reflexivity.
  - set (x := S754_finite false mx ex) in *.
    assert (Hpx : positive_finite x = true) by exact Hv.
    unfold mul. rewrite (SFmul_comm prec emax x f). fold (mul f x).
    rewrite <- (mul_one_l x Hv Hn) at 1.
    apply mul_mono; solve [assumption | reflexivity].
Qed.

(** Every valid float above zero is at least the smallest one. *)
Lemma smallest_positive_least (x : float32) :
  valid x = true -> ltb zero x = true -> leb smallest_positive x = true.
Proof.
  destruct x as [s | [] | | [] m e]; intros Hv Hlt; try discriminate Hlt;
    try reflexivity.
  unfold valid, valid_binary in Hv.
  destruct (bounded_inv prec emax _ _ Hv) as [Hc _].
  assert (He : -149 <= e) by (unfold fexp, SpecFloat.emin, prec, emax in Hc; lia).
  unfold leb, smallest_positive, SFleb, SFcompare.
  destruct (Z.compare_spec (-149) e); try reflexivity; try lia.
  change (Pos.compare_cont Eq 1 m) with (Pos.compare 1 m).
  destruct (Pos.compare_spec 1 m); try reflexivity. lia.
Qed.

End Float32Facts.

(** ** Further properties of the pedestrian costing *)

Section Extras.

Import rounding.

Variable kPedestrianAccess : Z.
Variable DynamicCost_not_thru_distance : float32.

Local Abbreviation PedestrianCost_ctor :=
  (thor.PedestrianCost_ctor DynamicCost_not_thru_distance).
Local Abbreviation Allowed := (thor.Allowed kPedestrianAccess).
Local Abbreviation Allowed_node := (thor.Allowed_node kPedestrianAccess).
Local Abbreviation GetFilter := (thor.GetFilter kPedestrianAccess).

(** X1. [Get] is monotone in the length: of two edges of the same use, the
    one that is not longer does not cost more, whatever positive finite
    favor factor the strategy holds. *)
Theorem Get_monotone (self : PedestrianCost) (e1 e2 : DirectedEdge) :
  positive_finite (favorwalkways_ self) = true ->
  use e1 = use e2 ->
  well_formed e1 = true -> valid (length e2) = true ->
  leb (length e1) (length e2) = true ->
  leb (Get self e1) (Get self e2) = true.
Proof.
  intros Hf Hu Hwf Hv2 Hle.
  destruct (well_formed_inv e1 Hwf) as [Hv1 Hn1].
  unfold Get. rewrite <- Hu.
  destruct (use e1); try exact Hle.
  apply mul_mono; assumption.
Qed.

(** X2. [Seconds] is monotone in the length, whatever positive finite
    walking speed the strategy holds. *)
Theorem Seconds_monotone (self : PedestrianCost) (e1 e2 : DirectedEdge) :
  positive_finite (walkingspeed_ self) = true ->
  well_formed e1 = true -> valid (length e2) = true ->
  leb (length e1) (length e2) = true ->
  leb (Seconds self e1) (Seconds self e2) = true.
Proof.
  intros Hw Hwf Hv2 Hle.
  destruct (well_formed_inv e1 Hwf) as [Hv1 Hn1].
  pose proof (leb_nonneg_r _ _ Hn1 Hle) as Hn2.
  assert (H36 : positive_finite lit_3_6 = true) by reflexivity.
  destruct (mul_valid (length e1) lit_3_6 Hv1 Hn1 H36) as [Hva Hna].
  destruct (mul_valid (length e2) lit_3_6 Hv2 Hn2 H36) as [Hvb _].
  unfold Seconds.
  apply div_mono; try assumption.
  apply mul_mono; assumption.
Qed.

(** X3. The A* factor is admissible for every positive finite favor
    factor, not only for 0.9f: the factor times the length of a
    well-formed edge is at most the cost of the edge. *)
Theorem AStarCostFactor_admissible (self : PedestrianCost) (edge : DirectedEdge) :
  positive_finite (favorwalkways_ self) = true ->
  well_formed edge = true ->
  leb (mul (AStarCostFactor self) (length edge)) (Get self edge) = true.
Proof.
  intros Hf Hwf.
  destruct (well_formed_inv edge Hwf) as [Hv Hn].
  destruct (positive_finite_valid _ Hf) as [Hvf Hnf].
  pose proof (nonneg_float_not_nan _ Hn) as Hnan.
  pose proof (nonneg_float_not_nan _ Hnf) as Hfnan.
  unfold AStarCostFactor, Get, ltb.
  destruct (SFltb (favorwalkways_ self) lit_1_0) eqn:Hlt.
  - apply SFltb_leb in Hlt.
    unfold mul at 1.
    rewrite (SFmul_comm prec emax (favorwalkways_ self) (length edge)).
    fold (mul (length edge) (favorwalkways_ self)).
    destruct (mul_valid (length edge) _ Hv Hn Hf) as [_ Hnm].
    destruct (use edge);
      try (apply mul_factor_le_one; assumption).
    apply SFleb_refl, nonneg_float_not_nan. assumption.
  - rewrite (mul_one_l _ Hv Hn).
    assert (Hge : leb lit_1_0 (favorwalkways_ self) = true).
    { apply SFltb_false_leb; [assumption | discriminate | assumption]. }
    destruct (use edge); try (apply SFleb_refl; assumption).
    apply mul_factor_ge_one; assumption.
Qed.

(** X4. A favor factor of at most one is a discount and one of at least
    one is a penalty: the cost of a well-formed edge is at most its
    length in the first case, at least its length in the second. *)
Theorem Get_versus_length (self : PedestrianCost) (edge : DirectedEdge) :
  positive_finite (favorwalkways_ self) = true ->
  well_formed edge = true ->
  (leb (favorwalkways_ self) lit_1_0 = true ->
   leb (Get self edge) (length edge) = true) /\
  (leb lit_1_0 (favorwalkways_ self) = true ->
   leb (length edge) (Get self edge) = true).
Proof.
  intros Hf Hwf.
  destruct (well_formed_inv edge Hwf) as [Hv Hn].
  pose proof (nonneg_float_not_nan _ Hn) as Hnan.
  unfold Get. split; intros Hle.
  - destruct (use edge); try (apply SFleb_refl; assumption).
    apply mul_factor_le_one; assumption.
  - destruct (use edge); try (apply SFleb_refl; assumption).
    apply mul_factor_ge_one; assumption.
Qed.

(** X5. With the strategy the factory builds, an edge of a length above
    zero has a cost above zero and takes a time above zero: neither is
    rounded down to zero. *)
Theorem positive_length_positive_cost (config : ptree) (edge : DirectedEdge) :
  well_formed edge = true ->
  gtb (length edge) zero = true ->
  gtb (Get (PedestrianCost_ctor config) edge) zero = true /\
  gtb (Seconds (PedestrianCost_ctor config) edge) zero = true.
Proof.
  intros Hwf Hpos. unfold gtb in *.
  destruct (well_formed_inv edge Hwf) as [Hv Hn].
  pose proof (smallest_positive_least _ Hv Hpos) as Hmin.
  assert (Hsv : valid smallest_positive = true) by reflexivity.
  assert (Hsn : nonneg_float smallest_positive = true) by reflexivity.
  assert (H09 : positive_finite lit_0_9 = true) by reflexivity.
  assert (H36 : positive_finite lit_3_6 = true) by reflexivity.
  assert (H51 : positive_finite lit_5_1 = true) by reflexivity.
  assert (Hz : SFltb zero smallest_positive = true) by reflexivity.
  split.
  - apply (SFltb_leb_trans zero smallest_positive); [exact Hz|].
    unfold Get.
    destruct (use edge); try exact Hmin.
    cbn [favorwalkways_ thor.PedestrianCost_ctor].
    change smallest_positive with (mul smallest_positive lit_0_9) at 1.
    apply mul_mono; assumption.
  - apply (SFltb_leb_trans zero smallest_positive); [exact Hz|].
    unfold Seconds. cbn [walkingspeed_ thor.PedestrianCost_ctor].
    change smallest_positive
      with (div (mul smallest_positive lit_3_6) lit_5_1) at 1.
    destruct (mul_valid smallest_positive lit_3_6 Hsv Hsn H36) as [Hva Hna].
    destruct (mul_valid (length edge) lit_3_6 Hv Hn H36) as [Hvb _].
    apply div_mono; try assumption.
    apply mul_mono; assumption.
Qed.

(** X6. [Get] and [Seconds] keep the invariant of a length: for a
    well-formed edge and a strategy whose speed and favor factor are
    positive and finite, both are valid floats and not below zero. *)
Theorem results_well_formed (self : PedestrianCost) (edge : DirectedEdge) :
  positive_finite (favorwalkways_ self) = true ->
  positive_finite (walkingspeed_ self) = true ->
  well_formed edge = true ->
  (valid (Get self edge) = true /\ geb (Get self edge) zero = true) /\
  (valid (Seconds self edge) = true /\ geb (Seconds self edge) zero = true).
Proof.
  intros Hf Hw Hwf.
  destruct (well_formed_inv edge Hwf) as [Hv Hn].
  assert (H36 : positive_finite lit_3_6 = true) by reflexivity.
  destruct (mul_valid (length edge) _ Hv Hn Hf) as [Hvm Hnm].
  destruct (mul_valid (length edge) lit_3_6 Hv Hn H36) as [Hva Hna].
  destruct (div_valid _ _ Hva Hna Hw) as [Hvd Hnd].
  unfold geb, zero. split.
  - unfold Get. destruct (use edge);
      try (split; [assumption | apply nonneg_float_leb; assumption]).
  - unfold Seconds. split; [assumption | apply nonneg_float_leb; assumption].
Qed.

(** X7. Coming closer to the destination, or raising the tolerance, never
    takes an access away: if an edge is allowed at some distance under
    some tolerance, it is allowed at every distance that is not greater
    under every tolerance that is not smaller. *)
Theorem Allowed_closer (self self' : PedestrianCost) (edge : DirectedEdge)
        (restriction : Z) (uturn : bool) (dist dist' : float32) :
  leb dist' dist = true ->
  leb (not_thru_distance_ self) (not_thru_distance_ self') = true ->
  Allowed self edge restriction uturn dist = true ->
  Allowed self' edge restriction uturn dist' = true.
Proof.
  unfold thor.Allowed, leb, gtb. intros Hd Ht H.
  apply andb_prop in H. destruct H as [H Hnt].
  rewrite H. cbn [andb].
  destruct (not_thru edge); [| reflexivity]. cbn [andb] in *.
  apply negb_true_iff in Hnt. apply negb_true_iff.
  destruct (SFltb (not_thru_distance_ self') dist') eqn:Hlt; [| reflexivity].
  pose proof (SFleb_ltb_trans _ _ _ Ht Hlt) as H1.
  pose proof (SFltb_leb_trans _ _ _ H1 Hd) as H2.
  congruence.
Qed.

(** X8. When the distance or the tolerance is not a number, the
    not-through test rejects nothing: [Allowed] is then the access test
    and the U-turn test alone. *)
Theorem Allowed_nan_distance (self : PedestrianCost) (edge : DirectedEdge)
        (restriction : Z) (uturn : bool) (dist : float32) :
  dist = S754_nan \/ not_thru_distance_ self = S754_nan ->
  Allowed self edge restriction uturn dist =
  negb (Z.land (forwardaccess edge) kPedestrianAccess =? 0) && negb uturn.
Proof.
  unfold thor.Allowed, gtb, SFltb. intros [-> | ->].
  - destruct (not_thru_distance_ self); cbn;
      rewrite andb_false_r, andb_true_r; reflexivity.
  - cbn. rewrite andb_false_r, andb_true_r. reflexivity.
Qed.

(** X9. [AStarCostFactor] is the smaller of the favor factor and one: it
    is one of the two, it is at most 1.0f (so it is never a NaN), and it
    is at most the favor factor when that is a number. *)
Theorem AStarCostFactor_is_min (self : PedestrianCost) :
  (AStarCostFactor self = favorwalkways_ self \/
   AStarCostFactor self = lit_1_0) /\
  leb (AStarCostFactor self) lit_1_0 = true /\
  (favorwalkways_ self <> S754_nan ->
   leb (AStarCostFactor self) (favorwalkways_ self) = true).
Proof.
  unfold AStarCostFactor, ltb.
  destruct (SFltb (favorwalkways_ self) lit_1_0) eqn:Hlt.
  - split; [left; reflexivity|]. split; [apply SFltb_leb; assumption|].
    intros Hnan. apply SFleb_refl. assumption.
  - split; [right; reflexivity|]. split; [reflexivity|].
    intros Hnan. apply SFltb_false_leb; [assumption | discriminate | assumption].
Qed.

(** X10. The location filter and [Allowed] disagree on transition edges
    only: an edge that [Allowed] accepts is excluded by the filter exactly
    when it is a transition up or down, and an edge the filter excludes
    without being a transition is never allowed. *)
Theorem filter_of_allowed (self : PedestrianCost) (edge : DirectedEdge) :
  (forall restriction uturn dist,
      Allowed self edge restriction uturn dist = true ->
      GetFilter self edge = trans_up edge || trans_down edge) /\
  (GetFilter self edge = true ->
   trans_up edge = false -> trans_down edge = false ->
   forall restriction uturn dist,
     Allowed self edge restriction uturn dist = false).
Proof.
  unfold thor.GetFilter, thor.Allowed. split.
  - intros r u d H.
    apply andb_prop in H. destruct H as [H _].
    apply andb_prop in H. destruct H as [H _].
    apply negb_true_iff in H. rewrite H, orb_false_r. reflexivity.
  - intros H Hu Hd r u d. rewrite Hu, Hd in H. cbn [orb] in H.
    rewrite H. reflexivity.
Qed.

(** X11. Only the pedestrian bits of an access mask matter, and the
    strategy does not: two nodes, or two edges that differ in their
    forward access mask at most, are treated alike as soon as the masks
    agree on [kPedestrianAccess]; the node test and the filter give the
    same answer whatever strategy object they are asked on. *)
Theorem access_other_modes_ignored (self self' : PedestrianCost)
        (edge : DirectedEdge) (mask : Z) (n1 n2 : NodeInfo) :
  (Z.land mask kPedestrianAccess
   = Z.land (forwardaccess edge) kPedestrianAccess ->
   (forall restriction uturn dist,
       Allowed self (with_forwardaccess edge mask) restriction uturn dist
       = Allowed self edge restriction uturn dist) /\
   GetFilter self (with_forwardaccess edge mask) = GetFilter self' edge) /\
  (Z.land (access n1) kPedestrianAccess = Z.land (access n2) kPedestrianAccess ->
   Allowed_node self n1 = Allowed_node self' n2).
Proof.
  unfold thor.Allowed, thor.GetFilter, thor.Allowed_node. split.
  - intros H. cbn [with_forwardaccess forwardaccess not_thru trans_up trans_down].
    rewrite H. split; reflexivity.
  - intros H. rewrite H. reflexivity.
Qed.

End Extras.

(** ** The further properties at concrete inputs *)

(** The cost is monotone in the length, not strictly so: the footway
    lengths 16777212 and 16777211 have the same cost. *)
Remark footway_cost_collision :
  Get sample.strategy (sample.edge 16777211 kFootway false 2)
  = Get sample.strategy (sample.edge 16777212 kFootway false 2) /\
  ltb (of_Z 16777211) (of_Z 16777212) = true.
Proof. split; reflexivity. Qed.

Lemma Get_monotone_witness :
  leb (length sample.footway_50) (length sample.footway_100) = true /\
  leb (Get sample.strategy sample.footway_50)
      (Get sample.strategy sample.footway_100) = true.
Proof.
  split; [reflexivity|].
  apply (Get_monotone sample.strategy sample.footway_50 sample.footway_100);
    reflexivity.
Defined.

Lemma Seconds_monotone_witness :
  leb (length sample.road_50) (length sample.footway_100) = true /\
  leb (Seconds sample.strategy sample.road_50)
      (Seconds sample.strategy sample.footway_100) = true.
Proof.
  split; [reflexivity|].
  apply (Seconds_monotone sample.strategy sample.road_50 sample.footway_100);
    reflexivity.
Defined.

(** A strategy whose favor factor is 2.0f, a penalty. *)
Lemma AStarCostFactor_admissible_witness :
  rounding.positive_finite lit_2_0 = true /\
  well_formed sample.footway_50 = true /\
  leb (mul (AStarCostFactor {| not_thru_distance_ := sample.not_thru_distance;
                               walkingspeed_ := lit_5_1;
                               favorwalkways_ := lit_2_0 |})
           (length sample.footway_50))
      (Get {| not_thru_distance_ := sample.not_thru_distance;
              walkingspeed_ := lit_5_1;
              favorwalkways_ := lit_2_0 |} sample.footway_50) = true.
Proof.
  split; [reflexivity|]. split; [reflexivity|].
  apply (AStarCostFactor_admissible
           {| not_thru_distance_ := sample.not_thru_distance;
              walkingspeed_ := lit_5_1;
              favorwalkways_ := lit_2_0 |} sample.footway_50);
    reflexivity.
Defined.

Lemma Get_versus_length_witness :
  well_formed sample.footway_100 = true /\
  leb (favorwalkways_ sample.strategy) lit_1_0 = true /\
  leb (Get sample.strategy sample.footway_100)
      (length sample.footway_100) = true.
Proof.
  split; [reflexivity|]. split; [reflexivity|].
  apply (Get_versus_length sample.strategy sample.footway_100);
    reflexivity.
Defined.

Lemma positive_length_positive_cost_witness :
  gtb (length sample.footway_50) zero = true /\
  gtb (Get sample.strategy sample.footway_50) zero = true /\
  gtb (Seconds sample.strategy sample.footway_50) zero = true.
Proof.
  split; [reflexivity|].
  apply (positive_length_positive_cost sample.not_thru_distance
           sample.empty_config sample.footway_50);
    reflexivity.
Defined.

Lemma results_well_formed_witness :
  well_formed sample.footway_100 = true /\
  valid (Get sample.strategy sample.footway_100) = true /\
  valid (Seconds sample.strategy sample.footway_100) = true.
Proof.
  split; [reflexivity|].
  pose proof (results_well_formed sample.strategy sample.footway_100
                eq_refl eq_refl eq_refl) as H.
  destruct H as [[Hg _] [Hs _]]. split; assumption.
Defined.

Lemma Allowed_closer_witness :
  leb (of_Z 4000) (of_Z 5000) = true /\
  thor.Allowed sample.kPedestrianAccess sample.strategy sample.cul_de_sac 0
               false (of_Z 5000) = true /\
  thor.Allowed sample.kPedestrianAccess sample.strategy sample.cul_de_sac 0
               false (of_Z 4000) = true.
Proof.
  split; [reflexivity|]. split; [reflexivity|].
  apply (Allowed_closer sample.kPedestrianAccess sample.strategy
           sample.strategy sample.cul_de_sac 0 false (of_Z 5000) (of_Z 4000));
    reflexivity.
Defined.

Lemma Allowed_nan_distance_witness :
  thor.Allowed sample.kPedestrianAccess sample.strategy sample.cul_de_sac 0
               false S754_nan = true.
Proof.
  rewrite (Allowed_nan_distance sample.kPedestrianAccess sample.strategy
             sample.cul_de_sac 0 false S754_nan (or_introl eq_refl)).
  reflexivity.
Defined.
